(** * mapArchiveCleaner: main.go, embedded and verified

    The program walks a directory tree and rewrites every [.zip] archive it
    meets: entries picked by [shouldSkipFile] are dropped, [.png] entries get
    the bytes of a placeholder image, every other entry is copied.

    Definitions, in this order:
    - [Path]: [filepath.Ext], [filepath.Base], [strings.Contains] (Go
      standard library, Unix flavour) and [shouldSkipFile];
    - errors, and [Zip]: times, headers, readable entries, the entries of
      the [zip.Writer] with what the writer makes of a header;
    - the world the program runs in (files, trace of the calls made) and
      the state-and-error monad of the functions of main.go;
    - the program: the calls of package os, [addPlaceholderPNGToZip],
      [copyFileToZip], [processZipFile], [filepath.Walk] over a directory
      tree, [main], and the sized wait group as a transition system;
    - what the theorems are stated with, and a small world to run in.
    The theorems follow, those about the name filter last but for the runs
    at concrete inputs. *)

From Stdlib Require Import Ascii String ZArith List Bool Lia.
From stdpp Require Import gmap strings list fin_maps.

Open Scope string_scope.

(* ===================================================================== *)
(** ** Paths and names                                                    *)
(* ===================================================================== *)

Module Path.

(** Go strings are byte sequences; [string] is a list of 8-bit [ascii]. *)

(** [os.PathSeparator] and [os.IsPathSeparator] on Unix. *)
Definition Separator : ascii := "/"%char.

Definition IsPathSeparator (c : ascii) : bool := Ascii.eqb c Separator.

(** [s[i:]] and [s[:i]]. *)
Definition slice_from (s : string) (i : nat) : string :=
  substring i (String.length s - i) s.

Definition slice_to (s : string) (i : nat) : string := substring 0 i s.

(** [filepath.Ext]:
<<
  for i := len(path) - 1; i >= 0 && !os.IsPathSeparator(path[i]); i-- {
      if path[i] == '.' { return path[i:] }
  }
  return ""
>>
    [Ext_loop path n] is the loop entered with [i = n - 1]. *)
Fixpoint Ext_loop (path : string) (n : nat) : string :=
  match n with
  | O => ""
  | S i =>
      match get i path with
      | None => ""
      | Some c =>
          if IsPathSeparator c then ""
          else if Ascii.eqb c "."%char then slice_from path i
          else Ext_loop path i
      end
  end.

Definition Ext (path : string) : string := Ext_loop path (String.length path).

(** First loop of [filepath.Base]: strip trailing slashes.
<<
  for len(path) > 0 && os.IsPathSeparator(path[len(path)-1]) {
      path = path[0 : len(path)-1]
  }
>>
    [trimmed_len path n] is the length left when the loop is entered with
    [len(path) = n]. *)
Fixpoint trimmed_len (path : string) (n : nat) : nat :=
  match n with
  | O => O
  | S k =>
      match get k path with
      | Some c => if IsPathSeparator c then trimmed_len path k else n
      | None => n
      end
  end.

(** Second loop of [filepath.Base]: find the last element.
<<
  i := len(path) - 1
  for i >= 0 && !os.IsPathSeparator(path[i]) { i-- }
  if i >= 0 { path = path[i+1:] }
>>
    [last_elem_start path n] is [i + 1] at loop exit ([0] when [i = -1]). *)
Fixpoint last_elem_start (path : string) (n : nat) : nat :=
  match n with
  | O => O
  | S k =>
      match get k path with
      | Some c => if IsPathSeparator c then n else last_elem_start path k
      | None => n
      end
  end.

(** [filepath.Base] (the volume name is empty on Unix). *)
Definition Base (path : string) : string :=
  if String.eqb path "" then "."
  else
    let path1 := slice_to path (trimmed_len path (String.length path)) in
    let path2 := slice_from path1 (last_elem_start path1 (String.length path1)) in
    if String.eqb path2 "" then String Separator "" else path2.

(** [strings.Index] and [strings.Contains]: [Contains(s, substr)] is
    [Index(s, substr) >= 0], the index of the first occurrence or [-1]. *)
Definition Index (s substr : string) : Z :=
  match index 0 substr s with
  | Some n => Z.of_nat n
  | None => (-1)%Z
  end.

Definition Contains (s substr : string) : bool := (0 <=? Index s substr)%Z.

(** [strings.HasSuffix]:
    [len(s) >= len(suffix) && s[len(s)-len(suffix):] == suffix]. *)
Definition HasSuffix (s suffix : string) : bool :=
  (String.length suffix <=? String.length s)%nat
  && String.eqb (slice_from s (String.length s - String.length suffix)) suffix.

(** [shouldSkipFile] of main.go. *)
Definition shouldSkipFile (fileName : string) : bool :=
  let ext := Ext fileName in
  let base := Base fileName in
  if Contains fileName "img-source" then true
  else
    String.eqb ext ".lua" ||
    String.eqb ext ".psd" ||
    String.eqb ext ".xcf" ||
    String.eqb ext ".blend" ||
    String.eqb ext ".jpg" ||
    String.eqb base "LICENSE" ||
    String.eqb base "README.md" ||
    String.eqb base "script.dat" ||
    String.eqb base "banner.png" ||
    String.eqb base "preview.png" ||
    String.eqb base "preview.jpg".

(** The two tables the name filter is described with. *)
Definition excluded_exts : list string :=
  [".lua"; ".psd"; ".xcf"; ".blend"; ".jpg"].

Definition excluded_bases : list string :=
  ["LICENSE"; "README.md"; "script.dat"; "banner.png"; "preview.png";
   "preview.jpg"].

End Path.

Import Path.

(* ===================================================================== *)
(** ** Errors                                                             *)
(* ===================================================================== *)

(** The system errors the model distinguishes. *)
Inductive errno := ENOENT | EACCES | EIO | ENOSPC | ENOTDIR.

(** Go [error] values.  [Errorf ctx cause] is [fmt.Errorf(ctx + ": %w", cause)];
    [SkipDir] and [SkipAll] are the sentinels of [path/filepath]. *)
Inductive error :=
| SkipDir
| SkipAll
| PathError (op path : string) (e : errno)
| ErrFormat
| ErrChecksum
| ErrOther (msg : string)
| Errorf (ctx : string) (cause : error).

Inductive result (A : Type) :=
| Ok (a : A)
| Err (e : error).
Arguments Ok {A} a.
Arguments Err {A} e.

Definition errno_string (e : errno) : string :=
  match e with
  | ENOENT => "no such file or directory"
  | EACCES => "permission denied"
  | EIO => "input/output error"
  | ENOSPC => "no space left on device"
  | ENOTDIR => "not a directory"
  end.

(** [err.Error()]. *)
Fixpoint Error (e : error) : string :=
  match e with
  | SkipDir => "skip this directory"
  | SkipAll => "skip everything and stop the walk"
  | PathError op path e => op ++ " " ++ path ++ ": " ++ errno_string e
  | ErrFormat => "zip: not a valid zip file"
  | ErrChecksum => "zip: checksum error"
  | ErrOther msg => msg
  | Errorf ctx cause => ctx ++ ": " ++ Error cause
  end.

(** [os.IsNotExist]: looks through a [*PathError], not through [%w]. *)
Definition IsNotExist (e : error) : bool :=
  match e with
  | PathError _ _ ENOENT => true
  | _ => false
  end.

Definition is_SkipDir (e : error) : bool :=
  match e with SkipDir => true | _ => false end.

Definition is_SkipAll (e : error) : bool :=
  match e with SkipAll => true | _ => false end.

(* ===================================================================== *)
(** ** Archives                                                           *)
(* ===================================================================== *)

Module Zip.

Definition bytes := list Byte.byte.

(** [time.Time]: the instant, as [t.Unix()] (seconds since 1970, negative
    before) and [t.Nanosecond()], and the offset of its location in seconds
    east of UTC.  main.go only copies times; the archive writer encodes
    them. *)
Record Time := {
  unix : Z;
  nsec : Z;
  zone : Z
}.

(** [t.IsZero()]: January 1 of year 1, 00:00:00 UTC. *)
Definition IsZero (t : Time) : bool :=
  (unix t =? -62135596800)%Z && (nsec t =? 0)%Z.

(** The conversion [uint32(x)] of an [int64]. *)
Definition uint32 (x : Z) : Z := (x mod 2 ^ 32)%Z.

(** [zip.Store] and [zip.Deflate] ([uint16] compression methods). *)
Definition Store : N := 0.
Definition Deflate : N := 8.

(** The fields of [zip.FileHeader] that main.go reads or sets. *)
Record FileHeader := {
  Name : string;
  Method : N;
  Modified : Time
}.

(** What [file.Open()] hands out: the decoded bytes the reader yields, and
    the error it ends with, if any (a failed checksum, a truncated
    stream). *)
Record ReadCloser := {
  rc_data : bytes;
  rc_err : option error
}.

(** A [*zip.File] of [zipReader.File]: its header and the result of
    [Open()]. *)
Record File := {
  header : FileHeader;
  opened : result ReadCloser
}.

(** An entry of the archive under construction: the header as
    [CreateHeader] leaves it, the extended timestamp [CreateHeader] encodes
    (a [uint32] of seconds, none for a header without a time), and the
    bytes written.  [Modified] stays in the header as it was handed in; the
    writer derives from it the timestamp and the MS-DOS date and time
    fields, which repeat the time in its own zone to two seconds and are
    not modelled. *)
Record Entry := {
  e_header : FileHeader;
  e_stamp : option Z;
  e_content : bytes
}.

(** The timestamp [CreateHeader] encodes for a time:
<<
  if !fh.Modified.IsZero() {
      ...
      mt := uint32(fh.Modified.Unix())
      ...
  }
>> *)
Definition stamp (t : Time) : option Z :=
  if IsZero t then None else Some (uint32 (unix t)).

(** The instant a reader of the archive finds for an entry, in seconds
    since 1970: the extended timestamp when there is one, and otherwise
    what the MS-DOS fields say, which are zero in a header built without a
    time and then stand for November 30, 1979.  It never has a fraction of
    a second. *)
Definition stored_unix (s : option Z) : Z :=
  match s with
  | Some ts => ts
  | None => 312768000
  end.

(** The instant of a time, and the instant a reader finds for an entry of
    a written archive: seconds since 1970 and nanoseconds. *)
Definition instant (t : Time) : Z * Z := (unix t, nsec t).

Definition entry_time (e : Entry) : Z * Z := (stored_unix (e_stamp e), 0%Z).

(** The [*zip.Writer]: the entries created so far, oldest first.  The last
    one is the entry open for writing. *)
Record Writer := {
  dir : list Entry;
  closed : bool
}.

Definition NewWriter : Writer := {| dir := []; closed := false |}.

(** Appending to the content of the last entry. *)
Fixpoint write_last (es : list Entry) (b : bytes) : list Entry :=
  match es with
  | [] => []
  | [e] => [{| e_header := e_header e; e_stamp := e_stamp e;
               e_content := (e_content e ++ b)%list |}]
  | e :: es' => e :: write_last es' b
  end.

(** What [zip.NewReader] gives for an entry of an archive this writer
    wrote: the name and the method of the header, the time as the archive
    stores it (whole seconds; the location, which the reader guesses from
    the MS-DOS fields, is left open), and the bytes written. *)
Definition read_back (e : Entry) (f : File) : Prop :=
  Name (header f) = Name (e_header e)
  /\ Method (header f) = Method (e_header e)
  /\ unix (Modified (header f)) = stored_unix (e_stamp e)
  /\ nsec (Modified (header f)) = 0%Z
  /\ opened f = Ok {| rc_data := e_content e; rc_err := None |}.

(** A time the archive stores exactly: on a whole second, from 1970 to
    early 2106. *)
Definition survives (t : Time) : Prop :=
  (0 <= unix t < 2 ^ 32)%Z /\ nsec t = 0%Z.

(** The file that gives back an entry exactly as the writer holds it,
    header and bytes.  A reader returns it for an entry whose time the
    archive stores exactly and whose location it guesses right; for other
    entries see [read_back]. *)
Definition reopen (e : Entry) : File :=
  {| header := e_header e;
     opened := Ok {| rc_data := e_content e; rc_err := None |} |}.

End Zip.

Import Zip.

(* ===================================================================== *)
(** ** The world: files, standard output, the calls made                  *)
(* ===================================================================== *)

(** [fs.FileMode] is a [uint32] bit set. *)
Definition FileMode := N.

Definition ModeDir : FileMode := N.shiftl 1 31.


(** [os.FileInfo], as far as main.go looks at it. *)
Record FileInfo := {
  fi_name : string;
  fi_mode : FileMode
}.

Definition IsDir (info : FileInfo) : bool :=
  negb (N.land (fi_mode info) ModeDir =? 0)%N.


(** The arguments [(info, err)] of a [filepath.WalkFunc]: [Walk] passes a
    nil [info] exactly when [Lstat] failed. *)
Inductive walk_arg :=
| Visited (info : FileInfo) (err : option error)
| LstatFailed (err : error).

(** The calls that reach the outside, in the order they are made. *)
Inductive event :=
| EStat (path : string)
| ELstat (path : string)
| EReadDir (path : string)
| EWalkFn (path : string) (a : walk_arg)
| EGo (zipPath : string)
| EOpen (path : string)
| EReadFile (path : string)
| EWriteFile (path : string) (data : bytes)
| ERemove (path : string)
| EPrint (line : string).

(** The files, each path with the bytes of the file it names, and the
    calls made so far.  Every path stands for a file of its own: a symbolic
    link shows in the [tree] below with the mode [os.Lstat] reports, but
    where it leads is not modelled, nor are two names of one file.  What is
    proved of [files] is therefore proved of runs in which the paths at
    play name different files; what is proved of the [trace], the calls and
    their arguments, does not depend on it. *)
Record World := {
  files : gmap string bytes;
  trace : list event
}.

Definition emit (e : event) (w : World) : World :=
  {| files := files w; trace := (trace w ++ [e])%list |}.

Definition set_files (f : gmap string bytes) (w : World) : World :=
  {| files := f; trace := trace w |}.

(** The library calls that can fail for reasons outside the model. *)
Inductive op :=
| OpStat (path : string)
| OpOpen (path : string)
| OpFileStat (path : string)
| OpReadFile (path : string)
| OpCreate (path : string)
| OpWrite (path : string)
| OpRemove (path : string)
| OpCreateHeader (name : string)
| OpEntryWrite (name : string)
| OpClose.

(** State and error monad of the functions of main.go. *)
Definition M (A : Type) : Type := World -> result A * World.

Definition ret {A} (a : A) : M A := fun w => (Ok a, w).

Definition bind {A B} (c : M A) (k : A -> M B) : M B :=
  fun w =>
    match c w with
    | (Ok a, w') => k a w'
    | (Err e, w') => (Err e, w')
    end.

Definition lift {A} (r : result A) : M A := fun w => (r, w).

(** [if err != nil { return fmt.Errorf(ctx + ": %w", err) }]. *)
Definition wrap {A} (ctx : string) (c : M A) : M A :=
  fun w =>
    match c w with
    | (Ok a, w') => (Ok a, w')
    | (Err e, w') => (Err (Errorf ctx e), w')
    end.

Definition wrap_result {A} (ctx : string) (r : result A) : result A :=
  match r with
  | Ok a => Ok a
  | Err e => Err (Errorf ctx e)
  end.

Declare Scope go_scope.
Delimit Scope go_scope with go.
Notation "x <- c ;; k" := (bind c (fun x => k))
  (at level 100, c at next level, right associativity) : go_scope.
Notation "c ;; k" := (bind c (fun _ => k))
  (at level 100, right associativity) : go_scope.

Definition nl : string := String (ascii_of_nat 10) "".

(** [fmt.Printf] / [fmt.Println]: one line on standard output. *)
Definition Print (line : string) : M unit :=
  fun w => (Ok tt, emit (EPrint line) w).

(* ===================================================================== *)
(** ** The program                                                        *)
(* ===================================================================== *)

(** The directory tree as [filepath.Walk] meets it: what [os.Lstat] answers
    for an object, what reading it as a directory answers, and the objects
    its names lead to (in the sorted order [Walk] reads them).  The children
    of an object that is not a directory, or whose listing fails, are never
    looked at. *)
#[warnings="-register-all"]
Inductive tree :=
| Tree (name : string) (lstat : errno + FileMode) (readdir : option errno)
       (children : list tree).

Definition tree_name (t : tree) : string :=
  match t with Tree name _ _ _ => name end.

Definition tree_lstat (t : tree) : errno + FileMode :=
  match t with Tree _ st _ _ => st end.

Definition WalkFunc := string -> walk_arg -> World -> option error * World.

Section Program.

(** The archive format is the library's business: [NewReader] is
    [zip.NewReader] on the bytes of a file, [Bytes] is [buf.Bytes()] once a
    writer holding the given entries has been closed. *)
Variable NewReader : bytes -> result (list File).
Variable Bytes : list Entry -> bytes.

(** Which library calls fail, and with what; [short_write] is the number of
    bytes that reach the disk when the write of [os.WriteFile] fails. *)
Variable fault : op -> option error.
Variable short_write : string -> nat.

(** [filepath.Join]. *)
Variable Join : string -> string -> string.

(** [runtime.NumCPU()]. *)
Variable NumCPU : Z.

(** *** Package os *)

Definition Stat (path : string) : M unit :=
  fun w =>
    let w := emit (EStat path) w in
    match fault (OpStat path) with
    | Some e => (Err e, w)
    | None =>
        match files w !! path with
        | Some _ => (Ok tt, w)
        | None => (Err (PathError "stat" path ENOENT), w)
        end
    end.

(** [os.Open]: the bytes the open file gives access to. *)
Definition Open (path : string) : M bytes :=
  fun w =>
    let w := emit (EOpen path) w in
    match fault (OpOpen path) with
    | Some e => (Err e, w)
    | None =>
        match files w !! path with
        | Some b => (Ok b, w)
        | None => (Err (PathError "open" path ENOENT), w)
        end
    end.

(** [zipFile.Stat()]: the size of the open file. *)
Definition FileStat (path : string) (content : bytes) : M nat :=
  fun w =>
    match fault (OpFileStat path) with
    | Some e => (Err e, w)
    | None => (Ok (length content), w)
    end.

Definition ReadFile (path : string) : M bytes :=
  fun w =>
    let w := emit (EReadFile path) w in
    match fault (OpReadFile path) with
    | Some e => (Err e, w)
    | None =>
        match files w !! path with
        | Some b => (Ok b, w)
        | None => (Err (PathError "open" path ENOENT), w)
        end
    end.

(** [os.WriteFile]: open with [O_WRONLY|O_CREATE|O_TRUNC], then write.  When
    the open fails nothing changes; when the write fails the file is left
    with the bytes that got through. *)
Definition WriteFile (path : string) (data : bytes) : M unit :=
  fun w =>
    let w := emit (EWriteFile path data) w in
    match fault (OpCreate path) with
    | Some e => (Err e, w)
    | None =>
        match fault (OpWrite path) with
        | Some e =>
            (Err e, set_files (<[path := take (short_write path) data]> (files w)) w)
        | None => (Ok tt, set_files (<[path := data]> (files w)) w)
        end
    end.

(** [os.Remove(zipPath)] as main.go calls it, the error it returns
    dropped: when the removal goes through there is no file at the path
    afterwards; when it is refused nothing changes, and the program never
    learns of it. *)
Definition Remove (path : string) (w : World) : World :=
  let w := emit (ERemove path) w in
  match fault (OpRemove path) with
  | Some _ => w
  | None => set_files (delete path (files w)) w
  end.

Arguments Remove : simpl never.

(** *** Package archive/zip, writing side *)

(** What [zw.CreateHeader(fh)] does to the header it is handed, which it
    keeps and writes out:
<<
  if !fh.Modified.IsZero() { ... mt := uint32(fh.Modified.Unix()) ... }
  ...
  if strings.HasSuffix(fh.Name, "/") {
      fh.Method = Store
      ...
      ow = dirWriter{}
  } else { ... }
>>
    A name that ends in a slash is a directory: its method becomes [Store]
    whatever the caller chose. *)
Definition created (fh : FileHeader) : Entry :=
  {| e_header := {| Name := Name fh;
                    Method := if HasSuffix (Name fh) "/" then Store else Method fh;
                    Modified := Modified fh |};
     e_stamp := stamp (Modified fh);
     e_content := [] |}.

Definition CreateHeader (zw : Writer) (fh : FileHeader) : result Writer :=
  match fault (OpCreateHeader (Name fh)) with
  | Some e => Err e
  | None => Ok {| dir := (dir zw ++ [created fh])%list; closed := closed zw |}
  end.

(** The error of [dstFile.Write(b)] on the entry named [dstFile], if any.
    The writer of a directory entry takes no bytes:
<<
  func (dirWriter) Write(b []byte) (int, error) {
      if len(b) == 0 { return 0, nil }
      return 0, errors.New("zip: write to directory")
  }
>> *)
Definition write_error (dstFile : string) (b : bytes) : option error :=
  if HasSuffix dstFile "/" then
    match b with
    | [] => None
    | _ :: _ => Some (ErrOther "zip: write to directory")
    end
  else fault (OpEntryWrite dstFile).

(** [dstFile.Write(b)] on the entry [CreateHeader] has just opened. *)
Definition Write (zw : Writer) (dstFile : string) (b : bytes) : result Writer :=
  match write_error dstFile b with
  | Some e => Err e
  | None => Ok {| dir := write_last (dir zw) b; closed := closed zw |}
  end.

(** [io.Copy(dstFile, srcFile)]: what the reader yields is written, then the
    reader's error, if any, is returned.  A reader that yields nothing
    leads to no call of [Write]. *)
Definition Copy (zw : Writer) (dstFile : string) (srcFile : ReadCloser) : result Writer :=
  let written :=
    match rc_data srcFile with
    | [] => Ok zw
    | _ :: _ => Write zw dstFile (rc_data srcFile)
    end in
  match written with
  | Err e => Err e
  | Ok zw' =>
      match rc_err srcFile with
      | Some e => Err e
      | None => Ok zw'
      end
  end.

Definition Close (zw : Writer) : result Writer :=
  if closed zw then Err (ErrOther "zip: writer closed twice")
  else
    match fault OpClose with
    | Some e => Err e
    | None => Ok {| dir := dir zw; closed := true |}
    end.

(** *** main.go *)

Definition addPlaceholderPNGToZip (file : File) (zipWriter : Writer)
    (placeholderPNG : bytes) : result Writer :=
  let header :=
    {| Name := Name (header file);
       Method := Deflate;
       Modified := Modified (header file) |} in
  match wrap_result "could not create file in new zip"
          (CreateHeader zipWriter header) with
  | Err e => Err e
  | Ok zw =>
      wrap_result "could not write placeholder PNG"
        (Write zw (Name header) placeholderPNG)
  end.

Definition copyFileToZip (file : File) (zipWriter : Writer) : result Writer :=
  match wrap_result "could not open file inside zip" (opened file) with
  | Err e => Err e
  | Ok srcFile =>
      let header :=
        {| Name := Name (header file);
           Method := Deflate;
           Modified := Modified (header file) |} in
      match wrap_result "could not create file in new zip"
              (CreateHeader zipWriter header) with
      | Err e => Err e
      | Ok zw =>
          wrap_result "could not copy file content"
            (Copy zw (Name header) srcFile)
      end
  end.

(** The loop [for _, file := range zipReader.File] of [processZipFile]. *)
Fixpoint range_files (fs : list File) (zipWriter : Writer)
    (placeholderPNG : bytes) : M Writer :=
  match fs with
  | [] => ret zipWriter
  | file :: rest =>
      let name := Name (header file) in
      if shouldSkipFile name then
        (Print ("Excluding file " ++ name ++ nl) ;;
         range_files rest zipWriter placeholderPNG)%go
      else if String.eqb (Ext name) ".png" then
        (zw <- wrap "could not replace PNG file"
                 (lift (addPlaceholderPNGToZip file zipWriter placeholderPNG)) ;;
         range_files rest zw placeholderPNG)%go
      else
        (zw <- wrap "could not copy file to new zip"
                 (lift (copyFileToZip file zipWriter)) ;;
         range_files rest zw placeholderPNG)%go
  end.

Definition processZipFile (zipPath placeholderPNGPath : string) : M unit :=
  (zipFile <- wrap "could not open zip file" (Open zipPath) ;;
   size <- wrap "could not get zip file info" (FileStat zipPath zipFile) ;;
   zipReader <- wrap "could not read zip file" (lift (NewReader zipFile)) ;;
   let zipWriter := NewWriter in
   placeholderPNG <- wrap "could not read placeholder PNG"
                       (ReadFile placeholderPNGPath) ;;
   zw <- range_files zipReader zipWriter placeholderPNG ;;
   zw' <- wrap "could not close new zip writer" (lift (Close zw)) ;;
   wrap "could not overwrite zip file" (WriteFile zipPath (Bytes (dir zw'))))%go.

(** The body of the goroutine [main] starts for an archive. *)
Definition goroutine (zipPath placeholderPNGPath : string) (w : World) : World :=
  match processZipFile zipPath placeholderPNGPath w with
  | (Ok _, w') => w'
  | (Err err, w') =>
      Remove zipPath
        (emit (EPrint ("Error processing zip file " ++ zipPath ++ ": "
                       ++ Error err ++ nl)) w')
  end.

(** *** [filepath.Walk] *)

(** Whether the loop over the names of a directory returns the error [err]
    that the visit of the child [k] came back with:
<<
  if err != nil {                       // Lstat failed
      if err := walkFn(filename, fileInfo, err); err != nil && err != SkipDir {
          return err }
  } else {
      err = walk(filename, fileInfo, walkFn)
      if err != nil { if !fileInfo.IsDir() || err != SkipDir { return err } }
  }
>> *)
Definition loop_returns (k : tree) (err : error) : bool :=
  match tree_lstat k with
  | inl _ => negb (is_SkipDir err)
  | inr mode =>
      negb (IsDir {| fi_name := tree_name k; fi_mode := mode |})
      || negb (is_SkipDir err)
  end.

(** A call of the walk function, on record. *)
Definition call (walkFn : WalkFunc) (path : string) (a : walk_arg) (w : World)
    : option error * World :=
  walkFn path a (emit (EWalkFn path a) w).

(** The loop [for _, name := range names] of [walk], given what visiting
    one child does. *)
Definition walk_names (visit1 : string -> tree -> World -> option error * World)
    (path : string) : list tree -> World -> option error * World :=
  fix loop (names : list tree) (w : World) : option error * World :=
    match names with
    | [] => (None, w)
    | k :: rest =>
        let filename := Join path (tree_name k) in
        match visit1 filename k w with
        | (None, w') => loop rest w'
        | (Some err, w') =>
            if loop_returns k err then (Some err, w') else loop rest w'
        end
    end.

(** [visit walkFn path t]: [Lstat] of [path], then either
    [walkFn(path, nil, err)] or [walk(path, info, walkFn)]:
<<
  if !info.IsDir() { return walkFn(path, info, nil) }
  names, err := readDirNames(path)
  err1 := walkFn(path, info, err)
  if err != nil || err1 != nil { return err1 }
  for _, name := range names { ... }
  return nil
>> *)
Fixpoint visit (walkFn : WalkFunc) (path : string) (t : tree) (w : World)
    : option error * World :=
  match t with
  | Tree name (inl e) _ _ =>
      call walkFn path (LstatFailed (PathError "lstat" path e))
        (emit (ELstat path) w)
  | Tree name (inr mode) readdir children =>
      let info := {| fi_name := name; fi_mode := mode |} in
      let w := emit (ELstat path) w in
      if negb (IsDir info) then call walkFn path (Visited info None) w
      else
        let w := emit (EReadDir path) w in
        match readdir with
        | Some e =>
            call walkFn path (Visited info (Some (PathError "open" path e))) w
        | None =>
            match call walkFn path (Visited info None) w with
            | (Some err1, w1) => (Some err1, w1)
            | (None, w1) => walk_names (visit walkFn) path children w1
            end
        end
  end.

(** [filepath.Walk]. *)
Definition Walk (root : string) (t : tree) (walkFn : WalkFunc) (w : World)
    : option error * World :=
  match visit walkFn root t w with
  | (Some err, w') =>
      if is_SkipDir err || is_SkipAll err then (None, w') else (Some err, w')
  | (None, w') => (None, w')
  end.

(** *** [main] *)

Definition placeholderPNGPath : string := "./placeholder.png".

(** The function literal handed to [filepath.Walk].  [swg.Add()] followed by
    [go func(zipPath string) {...}(path)] is recorded as [EGo path]; the
    goroutine is run on the spot, which is one of the schedules the wait
    group admits ([step] below describes all of them).  In another
    schedule the events of a goroutine come later in the trace, between or
    after those of the walk, and after the line [main] prints for an error
    of the walk; only the last line of [main] is sure to come after them
    all.  So the theorems about [main] speak of which calls are made, of
    the order of the calls of the walk itself, and of the files left, not
    of where in the trace the events of a goroutine stand. *)
Definition walkFn (path : string) (a : walk_arg) (w : World) : option error * World :=
  match a with
  | LstatFailed err => (Some err, w)
  | Visited info (Some err) => (Some err, w)
  | Visited info None =>
      if negb (IsDir info) && String.eqb (Ext (fi_name info)) ".zip" then
        (None, goroutine path placeholderPNGPath (emit (EGo path) w))
      else (None, w)
  end.

(** [main] after the placeholder check: the walk, the report of its error,
    the wait and the last line. *)
Definition walk_and_wait (rootDir : string) (t : tree) (w : World) : World :=
  let '(err, w1) := Walk rootDir t walkFn w in
  let w2 :=
    match err with
    | Some e => emit (EPrint ("Error walking the directory: " ++ Error e ++ nl)) w1
    | None => w1
    end in
  emit (EPrint ("Processing complete." ++ nl)) w2.

(** [main]: [rootDir] is the value of [-path], [t] the tree found there.
    The result is the exit status and the world left behind; returning
    from [main] ends the process with status 0. *)
Definition main (rootDir : string) (t : tree) (w : World) : Z * World :=
  let '(r, w1) := Stat placeholderPNGPath w in
  let missing := match r with Err err => IsNotExist err | Ok _ => false end in
  if missing then
    (0%Z, emit (EPrint ("Placeholder PNG file not found at "
                        ++ placeholderPNGPath ++ nl)) w1)
  else (0%Z, walk_and_wait rootDir t w1).

(** The test [os.IsNotExist(err)] of [main] on the result of [os.Stat]. *)
Definition placeholder_missing (w : World) : bool :=
  match fst (Stat placeholderPNGPath w) with
  | Err err => IsNotExist err
  | Ok _ => false
  end.

(** *** The sized wait group *)

Definition MaxInt32 : Z := 2147483647.

(** [sizedwaitgroup.SizedWaitGroup]: [current] is the number of tokens in
    the buffered channel of capacity [Size]. *)
Record SizedWaitGroup := {
  Size : Z;
  current : Z
}.

(** [sizedwaitgroup.New(limit)]. *)
Definition New (limit : Z) : SizedWaitGroup :=
  {| Size := if (0 <? limit)%Z then limit else MaxInt32; current := 0 |}.

(** [swg.Add()] once a token fits in the channel, and [swg.Done()]. *)
Definition Add (g : SizedWaitGroup) : SizedWaitGroup :=
  {| Size := Size g; current := (current g + 1)%Z |}.

Definition Done (g : SizedWaitGroup) : SizedWaitGroup :=
  {| Size := Size g; current := (current g - 1)%Z |}.

(** A moment of a run of [main] after the placeholder check: the archives
    the walk has yet to reach, the goroutines started and not yet done. *)
Record sched := {
  swg : SizedWaitGroup;
  todo : list string;
  running : list string;
  world : World
}.

(** The moves of the scheduler.  [swg.Add()] blocks while the channel is
    full, so a goroutine starts only below [Size]; a running goroutine
    finishes at any time, and gives its token back. *)
Inductive step : sched -> sched -> Prop :=
| step_go s zipPath rest :
    todo s = zipPath :: rest ->
    (current (swg s) < Size (swg s))%Z ->
    step s {| swg := Add (swg s);
              todo := rest;
              running := (running s ++ [zipPath])%list;
              world := emit (EGo zipPath) (world s) |}
| step_done s before zipPath after :
    running s = (before ++ zipPath :: after)%list ->
    step s {| swg := Done (swg s);
              todo := todo s;
              running := (before ++ after)%list;
              world := goroutine zipPath placeholderPNGPath (world s) |}.

Inductive steps : sched -> sched -> Prop :=
| steps_refl s : steps s s
| steps_step s1 s2 s3 : steps s1 s2 -> step s2 s3 -> steps s1 s3.

(** The start: [numWorkers := runtime.NumCPU(); swg := sizedwaitgroup.New(numWorkers)]. *)
Definition sched_init (zipPaths : list string) (w : World) : sched :=
  {| swg := New NumCPU; todo := zipPaths; running := []; world := w |}.

(** *** Reading a trace *)

Definition since (w w' : World) : list event :=
  drop (length (trace w)) (trace w').

(** The archives goroutines were started for. *)
Fixpoint dispatched (tr : list event) : list string :=
  match tr with
  | [] => []
  | EGo p :: tr' => p :: dispatched tr'
  | _ :: tr' => dispatched tr'
  end.

(** The calls of the walk function. *)
Fixpoint calls (tr : list event) : list (string * walk_arg) :=
  match tr with
  | [] => []
  | EWalkFn p a :: tr' => (p, a) :: calls tr'
  | _ :: tr' => calls tr'
  end.

(** The objects the walk function was shown: path and [FileInfo]. *)
Fixpoint visited (cs : list (string * walk_arg)) : list (string * FileInfo) :=
  match cs with
  | [] => []
  | (p, Visited info _) :: cs' => (p, info) :: visited cs'
  | (p, LstatFailed _) :: cs' => visited cs'
  end.

(** The lines on standard output. *)
Fixpoint stdout (tr : list event) : list string :=
  match tr with
  | [] => []
  | EPrint l :: tr' => l :: stdout tr'
  | _ :: tr' => stdout tr'
  end.

(** How often a file was read with [os.ReadFile]. *)
Fixpoint reads_of (path : string) (tr : list event) : nat :=
  match tr with
  | [] => 0
  | EReadFile p :: tr' => (if String.eqb p path then 1 else 0) + reads_of path tr'
  | _ :: tr' => reads_of path tr'
  end.

(** The paths written to or removed. *)
Fixpoint modified (tr : list event) : list string :=
  match tr with
  | [] => []
  | EWriteFile p _ :: tr' => p :: modified tr'
  | ERemove p :: tr' => p :: modified tr'
  | _ :: tr' => modified tr'
  end.

(** The paths opened or read. *)
Fixpoint read_paths (tr : list event) : list string :=
  match tr with
  | [] => []
  | EOpen p :: tr' => p :: read_paths tr'
  | EReadFile p :: tr' => p :: read_paths tr'
  | _ :: tr' => read_paths tr'
  end.

(** *** The tree in walk order *)

(** The error a call carries, if any. *)
Definition arg_err (a : walk_arg) : option error :=
  match a with
  | Visited _ err => err
  | LstatFailed err => Some err
  end.

(** Every call [Walk] makes on a tree when no call makes it stop or skip:
    the objects in lexical pre-order, a directory that cannot be listed
    standing for itself alone. *)
Fixpoint calls_of (path : string) (t : tree) : list (string * walk_arg) :=
  match t with
  | Tree name (inl e) _ _ => [(path, LstatFailed (PathError "lstat" path e))]
  | Tree name (inr mode) readdir children =>
      let info := {| fi_name := name; fi_mode := mode |} in
      if negb (IsDir info) then [(path, Visited info None)]
      else
        match readdir with
        | Some e => [(path, Visited info (Some (PathError "open" path e)))]
        | None =>
            (path, Visited info None)
            :: flat_map (fun k => calls_of (Join path (tree_name k)) k) children
        end
  end.

(** A list of calls up to and including the first that carries an error. *)
Fixpoint until_error (cs : list (string * walk_arg)) : list (string * walk_arg) :=
  match cs with
  | [] => []
  | (p, a) :: cs' =>
      match arg_err a with
      | Some _ => [(p, a)]
      | None => (p, a) :: until_error cs'
      end
  end.

(** The first error among the calls. *)
Fixpoint first_error (cs : list (string * walk_arg)) : option error :=
  match cs with
  | [] => None
  | (p, a) :: cs' =>
      match arg_err a with
      | Some e => Some e
      | None => first_error cs'
      end
  end.

(** What [main] starts a goroutine for. *)
Definition is_target (v : string * FileInfo) : bool :=
  negb (IsDir (snd v)) && String.eqb (Ext (fi_name (snd v))) ".zip".

(** The calls on which the walk function of [main] starts a goroutine. *)
Fixpoint started (cs : list (string * walk_arg)) : list string :=
  match cs with
  | [] => []
  | (p, Visited info None) :: cs' =>
      if is_target (p, info) then p :: started cs' else started cs'
  | _ :: cs' => started cs'
  end.

(** The events one call stands for: the [Lstat] of the object, the
    listing when it is a directory, the call itself. *)
Definition call_events (c : string * walk_arg) : list event :=
  match c with
  | (p, LstatFailed e) => [ELstat p; EWalkFn p (LstatFailed e)]
  | (p, Visited info err) =>
      if IsDir info then [ELstat p; EReadDir p; EWalkFn p (Visited info err)]
      else [ELstat p; EWalkFn p (Visited info err)]
  end.

Definition emit_all (evs : list event) (w : World) : World :=
  {| files := files w; trace := (trace w ++ evs)%list |}.

(** The walk function of [main] run on a list of calls, one after the
    other. *)
Definition run_call (w : World) (c : string * walk_arg) : World :=
  snd (walkFn (fst c) (snd c) (emit_all (call_events c) w)).

Definition run_calls (cs : list (string * walk_arg)) (w : World) : World :=
  fold_left run_call cs w.

(** Whether the archive at [zipPath] opens and parses: the first three
    steps of [processZipFile] go through. *)
Definition parses (zipPath : string) (w : World) : bool :=
  match fault (OpOpen zipPath), fault (OpFileStat zipPath), files w !! zipPath with
  | None, None, Some raw =>
      match NewReader raw with Ok _ => true | Err _ => false end
  | _, _, _ => false
  end.

(** *** Entries of the input against entries of the output *)

(** The entries the rewriter keeps, and the ones it replaces. *)
Definition kept (f : File) : bool := negb (shouldSkipFile (Name (header f))).

Definition is_png (f : File) : bool := String.eqb (Ext (Name (header f))) ".png".

(** The method an entry of the given name is written with when the
    caller asks for [Deflate]. *)
Definition method_of (name : string) : N :=
  if HasSuffix name "/" then Store else Deflate.

(** [e] is what the output holds for the kept input entry [f]: the same
    name; the time of [f] as the archive stores it, in seconds modulo
    [2^32] and none for the zero time, which is the very time of [f] when
    that is one the archive stores exactly; method [Deflate], or [Store]
    for a directory; and as content the placeholder for a [.png], the bytes
    [f] decodes to otherwise. *)
Definition output_of (placeholderPNG : bytes) (f : File) (e : Entry) : Prop :=
  Name (e_header e) = Name (header f)
  /\ e_stamp e = stamp (Modified (header f))
  /\ (survives (Modified (header f)) ->
      entry_time e = instant (Modified (header f)))
  /\ Method (e_header e) = method_of (Name (header f))
  /\ if is_png f then e_content e = placeholderPNG
     else opened f = Ok {| rc_data := e_content e; rc_err := None |}.

(** [e] has the name and the decoded bytes of [f], and its time as the
    archive stores it. *)
Definition same_entry (f : File) (e : Entry) : Prop :=
  Name (e_header e) = Name (header f)
  /\ e_stamp e = stamp (Modified (header f))
  /\ (survives (Modified (header f)) ->
      entry_time e = instant (Modified (header f)))
  /\ opened f = Ok {| rc_data := e_content e; rc_err := None |}.

(** Two entries that read the same: name, method, stored time, bytes. *)
Definition same_stored (e e' : Entry) : Prop :=
  Name (e_header e') = Name (e_header e)
  /\ Method (e_header e') = Method (e_header e)
  /\ stored_unix (e_stamp e') = stored_unix (e_stamp e)
  /\ e_content e' = e_content e.

(** The entry [copyFileToZip] writes for [f]. *)
Definition copy_entry (f : File) : Entry :=
  {| e_header := {| Name := Name (header f);
                    Method := method_of (Name (header f));
                    Modified := Modified (header f) |};
     e_stamp := stamp (Modified (header f));
     e_content := match opened f with
                  | Ok rc => rc_data rc
                  | Err _ => []
                  end |}.

(** The error of the writes [io.Copy] makes for [data], if any. *)
Definition copy_error (dstFile : string) (data : bytes) : option error :=
  match data with
  | [] => None
  | _ :: _ => write_error dstFile data
  end.

(** [f] is kept, is no [.png], reads without error, and the writer takes
    it. *)
Definition copyable (f : File) : Prop :=
  kept f = true
  /\ is_png f = false
  /\ fault (OpCreateHeader (Name (header f))) = None
  /\ exists data,
       opened f = Ok {| rc_data := data; rc_err := None |}
       /\ copy_error (Name (header f)) data = None.

(** The events of one job: no walk, no goroutine started; nothing written
    or removed but the archive; nothing read but the archive and the
    placeholder, the latter with one [os.ReadFile] when the archive
    parsed and none otherwise. *)
Definition job_events (zipPath php : string) (parsed : bool) (evs : list event) : Prop :=
  dispatched evs = []
  /\ calls evs = []
  /\ Forall (fun q => q = zipPath) (modified evs)
  /\ Forall (fun q => q = zipPath \/ q = php) (read_paths evs)
  /\ reads_of php evs = (if parsed then 1 else 0).

(** The events of a walk that made the calls [cs]: the calls are on
    record, the goroutines started are those of [started cs], and whatever
    was written, removed, opened or read was so by one of them. *)
Definition walk_events (cs : list (string * walk_arg)) (evs : list event) : Prop :=
  calls evs = cs
  /\ dispatched evs = started cs
  /\ Forall (fun q => In q (started cs)) (modified evs)
  /\ Forall (fun q => In q (started cs) \/ q = placeholderPNGPath) (read_paths evs)
  /\ reads_of placeholderPNGPath evs <= length (started cs).

(** The last lines of a run that got past the placeholder check. *)
Definition closing_lines (err : option error) : list event :=
  match err with
  | Some e => [EPrint ("Error walking the directory: " ++ Error e ++ nl);
               EPrint ("Processing complete." ++ nl)]
  | None => [EPrint ("Processing complete." ++ nl)]
  end.

(** A call that carries an error along with a [FileInfo] is the call for a
    directory whose listing failed. *)
Definition listed_ok (c : string * walk_arg) : Prop :=
  match snd c with
  | Visited info (Some _) => IsDir info = true
  | _ => True
  end.


(** *** More to state properties with *)

(** The output entry for a kept entry [f]: the placeholder for a [.png],
    what [f] decodes to otherwise. *)
Definition rewrite_entry (placeholderPNG : bytes) (f : File) : Entry :=
  {| e_header := {| Name := Name (header f);
                    Method := method_of (Name (header f));
                    Modified := Modified (header f) |};
     e_stamp := stamp (Modified (header f));
     e_content := if is_png f then placeholderPNG
                  else match opened f with
                       | Ok rc => rc_data rc
                       | Err _ => []
                       end |}.

Definition rewrite_entries (placeholderPNG : bytes) (fs : list File) : list Entry :=
  map (rewrite_entry placeholderPNG) (List.filter kept fs).

(** The lines printed for the entries left out. *)
Definition excluded_lines (fs : list File) : list string :=
  map (fun f => "Excluding file " ++ Name (header f) ++ nl)
    (List.filter (fun f => negb (kept f)) fs).

(** The writer takes [f]: it creates the entry and accepts the bytes, the
    placeholder for a [.png], and otherwise the bytes of [f], which can be
    read to the end (for a directory entry there must be none). *)
Definition writable (f : File) : Prop :=
  fault (OpCreateHeader (Name (header f))) = None
  /\ if is_png f then fault (OpEntryWrite (Name (header f))) = None
     else exists data,
            opened f = Ok {| rc_data := data; rc_err := None |}
            /\ copy_error (Name (header f)) data = None.

(** All that a rewrite of [zipPath] needs to go through. *)
Definition rewrite_ready (zipPath php : string) (w : World) : Prop :=
  fault (OpOpen zipPath) = None
  /\ fault (OpFileStat zipPath) = None
  /\ fault (OpReadFile php) = None
  /\ fault OpClose = None
  /\ fault (OpCreate zipPath) = None
  /\ fault (OpWrite zipPath) = None
  /\ exists raw fs,
       files w !! zipPath = Some raw
       /\ NewReader raw = Ok fs
       /\ is_Some (files w !! php)
       /\ Forall writable (List.filter kept fs).

(** All goroutines started, each to its end, in the order given. *)
Definition one_by_one (zipPaths : list string) (w : World) : World :=
  fold_left (fun w p => goroutine p placeholderPNGPath (emit (EGo p) w))
    zipPaths w.

(** A run of the scheduler is over: nothing to start, nothing under way. *)
Definition complete (s : sched) : Prop := todo s = [] /\ running s = [].

(** What is left to do: two moves for an archive not yet started, one for
    a goroutine under way. *)
Definition moves_left (s : sched) : nat :=
  2 * length (todo s) + length (running s).


(** *** A small world to run the program in *)

Definition no_fault : op -> option error := fun _ => None.

Definition whole_writes : string -> nat := fun _ => 0.

(** Paths below the root [.] are spelled without it, as [filepath.Join]
    cleans them. *)
Definition demo_Join (dir name : string) : string :=
  if String.eqb dir "." then name else dir ++ "/" ++ name.

Fixpoint bytes_eqb (a b : bytes) : bool :=
  match a, b with
  | [], [] => true
  | x :: a', y :: b' => Byte.eqb x y && bytes_eqb a' b'
  | _, _ => false
  end.

(** A time on a whole second, in UTC. *)
Definition at_second (s : Z) : Time := {| unix := s; nsec := 0; zone := 0 |}.

Definition demo_entry (name : string) (t : Z) (data : bytes) : File :=
  {| header := {| Name := name; Method := Store; Modified := at_second t |};
     opened := Ok {| rc_data := data; rc_err := None |} |}.

Definition demo_placeholder : bytes := [Byte.x89; Byte.x50; Byte.x4e; Byte.x47].

(** An archive with entries of each kind. *)
Definition demo_raw : bytes := [Byte.x50; Byte.x4b; Byte.x03; Byte.x04; Byte.x01].

Definition demo_files : list File :=
  [demo_entry "map/control.lua" 100%Z [Byte.x01];
   demo_entry "map/info.json" 200%Z [Byte.x7b; Byte.x7d];
   demo_entry "map/thumb.png" 300%Z [Byte.x05; Byte.x06; Byte.x07];
   demo_entry "map/img-source/raw.txt" 400%Z [Byte.x09];
   demo_entry "map/data/terrain.dat" 500%Z [Byte.x2a]].

(** An archive of plain entries only. *)
Definition plain_raw : bytes := [Byte.x50; Byte.x4b; Byte.x03; Byte.x04; Byte.x02].

Definition plain_files : list File :=
  [demo_entry "map/info.json" 200%Z [Byte.x7b; Byte.x7d];
   demo_entry "map/readme.txt" 250%Z [Byte.x41]].

(** A stand-in for the archive format: enough to tell archives apart. *)
Definition demo_Bytes (es : list Entry) : bytes :=
  Byte.x50 :: Byte.x4b :: flat_map (fun e => (e_content e ++ [Byte.x00])%list) es.

Definition demo_NewReader (b : bytes) : result (list File) :=
  if bytes_eqb b demo_raw then Ok demo_files
  else if bytes_eqb b plain_raw then Ok plain_files
  else if bytes_eqb b (demo_Bytes (map copy_entry plain_files))
       then Ok (map reopen (map copy_entry plain_files))
  else Err ErrFormat.

Definition demo_world : World :=
  {| files := <["./placeholder.png" := demo_placeholder]>
                (<["maps/a.zip" := demo_raw]>
                   (<["maps/bad.zip" := [Byte.x00]]>
                      (<["maps/plain.zip" := plain_raw]>
                         (<["link.zip" := plain_raw]> ∅))));
     trace := [] |}.

Definition dir_mode : FileMode := N.lor ModeDir 493%N.
Definition file_mode : FileMode := 420%N.

Definition demo_tree : tree :=
  Tree "." (inr dir_mode) None
    [Tree "maps" (inr dir_mode) None
       [Tree "a.zip" (inr file_mode) None [];
        Tree "bad.zip" (inr file_mode) None [];
        Tree "notes.txt" (inr file_mode) None [];
        Tree "plain.zip" (inr file_mode) None []];
     Tree "placeholder.png" (inr file_mode) None []].

(** The same tree with a directory that cannot be listed in front. *)
Definition locked_tree : tree :=
  Tree "." (inr dir_mode) None
    [Tree "locked" (inr dir_mode) (Some EACCES) [];
     Tree "maps" (inr dir_mode) None
       [Tree "a.zip" (inr file_mode) None []]].


(** A world without the placeholder. *)
Definition bare_world : World :=
  {| files := <["maps/a.zip" := demo_raw]> ∅; trace := [] |}.

(** *** A second small world, for archives read twice and broken ones *)

(** An archive with an entry that cannot be read. *)
Definition broken_raw : bytes := [Byte.x50; Byte.x4b; Byte.x03; Byte.x04; Byte.x03].

Definition broken_files : list File :=
  [demo_entry "map/info.json" 200%Z [Byte.x7b; Byte.x7d];
   {| header := {| Name := "map/terrain.dat"; Method := Deflate; Modified := at_second 300 |};
      opened := Ok {| rc_data := [Byte.x2a]; rc_err := Some ErrChecksum |} |}].

(** A reader that also knows the rewritten demo archive and the broken
    one. *)
Definition second_NewReader (b : bytes) : result (list File) :=
  if bytes_eqb b demo_raw then Ok demo_files
  else if bytes_eqb b (demo_Bytes (rewrite_entries demo_placeholder demo_files))
       then Ok (map reopen (rewrite_entries demo_placeholder demo_files))
  else if bytes_eqb b broken_raw then Ok broken_files
  else if bytes_eqb b plain_raw then Ok plain_files
  else Err ErrFormat.

Definition broken_world : World :=
  {| files := <["./placeholder.png" := demo_placeholder]>
                (<["maps/broken.zip" := broken_raw]> ∅);
     trace := [] |}.

(** The placeholder is there, and reading it is refused. *)
Definition refused_read (o : op) : option error :=
  match o with
  | OpReadFile "./placeholder.png" =>
      Some (PathError "open" "./placeholder.png" EACCES)
  | _ => None
  end.

(** Removing anything below [maps] is refused, as in a directory without
    write permission. *)
Definition refused_remove (o : op) : option error :=
  match o with
  | OpRemove "maps/bad.zip" => Some (PathError "remove" "maps/bad.zip" EACCES)
  | OpRemove "maps/broken.zip" =>
      Some (PathError "remove" "maps/broken.zip" EACCES)
  | _ => None
  end.

(** *** A third small world, for times and directories *)

(** An archive whose first entry has a time with a fraction of a second,
    as archives made on Windows have. *)
Definition ntfs_raw : bytes := [Byte.x50; Byte.x4b; Byte.x03; Byte.x04; Byte.x04].

Definition ntfs_files : list File :=
  [{| header := {| Name := "map/info.json"; Method := Deflate;
                   Modified := {| unix := 200; nsec := 500000000; zone := 0 |} |};
      opened := Ok {| rc_data := [Byte.x7b; Byte.x7d]; rc_err := None |} |};
   demo_entry "map/thumb.png" 300%Z [Byte.x05]].

(** An archive with an entry for a directory. *)
Definition tree_raw : bytes := [Byte.x50; Byte.x4b; Byte.x03; Byte.x04; Byte.x05].

Definition tree_files : list File :=
  [demo_entry "map/" 100%Z [];
   demo_entry "map/info.json" 200%Z [Byte.x7b; Byte.x7d]].

(** An archive of plain entries, one of them dated [2^32 + 7] seconds after
    1970, on February 7, 2106. *)
Definition late_raw : bytes := [Byte.x50; Byte.x4b; Byte.x03; Byte.x04; Byte.x06].

Definition late_files : list File :=
  [demo_entry "map/info.json" 200%Z [Byte.x7b; Byte.x7d];
   demo_entry "map/late.txt" 4294967303%Z [Byte.x41]].

(** An entry of a written archive as a reader returns it, the time put in
    UTC. *)
Definition reread (e : Entry) : File :=
  {| header := {| Name := Name (e_header e);
                  Method := Method (e_header e);
                  Modified := at_second (stored_unix (e_stamp e)) |};
     opened := Ok {| rc_data := e_content e; rc_err := None |} |}.

Definition third_NewReader (b : bytes) : result (list File) :=
  if bytes_eqb b ntfs_raw then Ok ntfs_files
  else if bytes_eqb b tree_raw then Ok tree_files
  else if bytes_eqb b late_raw then Ok late_files
  else if bytes_eqb b (demo_Bytes (map copy_entry late_files))
       then Ok (map reread (map copy_entry late_files))
  else Err ErrFormat.

Definition dated_world : World :=
  {| files := <["./placeholder.png" := demo_placeholder]>
                (<["maps/ntfs.zip" := ntfs_raw]>
                   (<["maps/tree.zip" := tree_raw]>
                      (<["maps/late.zip" := late_raw]> ∅)));
     trace := [] |}.

(* ===================================================================== *)
(** * Theorems                                                            *)
(* ===================================================================== *)

(** ** The monad *)

Lemma wrap_result_ok {A} (ctx : string) (r : result A) (a : A) :
  wrap_result ctx r = Ok a -> r = Ok a.
Proof. destruct r; [now intros [= <-] | discriminate]. Qed.

Lemma wrap_lift {A} (ctx : string) (r : result A) (w : World) :
  wrap ctx (lift r) w = (wrap_result ctx r, w).
Proof. unfold wrap, lift. now destruct r. Qed.

(** ** The archive writer *)

Lemma write_last_snoc (es : list Entry) (e : Entry) (b : bytes) :
  write_last (es ++ [e])%list b
  = (es ++ [{| e_header := e_header e; e_stamp := e_stamp e;
               e_content := (e_content e ++ b)%list |}])%list.
Proof.
  induction es as [|e0 es IH]; [reflexivity|].
  simpl. rewrite IH. destruct (es ++ [e])%list eqn:E; [|reflexivity].
  now destruct es.
Qed.

Lemma CreateHeader_ok (zw zw' : Writer) (fh : FileHeader) :
  CreateHeader zw fh = Ok zw' ->
  fault (OpCreateHeader (Name fh)) = None
  /\ dir zw' = (dir zw ++ [created fh])%list
  /\ closed zw' = closed zw.
Proof.
  unfold CreateHeader. destruct (fault _); [discriminate|].
  now intros [= <-].
Qed.

Lemma Write_ok (zw zw' : Writer) (dst : string) (b : bytes) :
  Write zw dst b = Ok zw' ->
  write_error dst b = None
  /\ dir zw' = write_last (dir zw) b /\ closed zw' = closed zw.
Proof.
  unfold Write. destruct (write_error _ _); [discriminate|].
  now intros [= <-].
Qed.

(** A name that ends in a slash has no extension: the loop of
    [filepath.Ext] stops at the slash at once. *)
Lemma substring_last_get (s : string) : forall k c,
  substring k (String.length s - k) s = String c "" -> get k s = Some c.
Proof.
  induction s as [|a s IH]; intros k c H.
  - destruct k; discriminate H.
  - destruct k as [|k].
    + simpl in H. injection H as -> _. reflexivity.
    + simpl in H. simpl. apply IH. exact H.
Qed.

Lemma HasSuffix_slash_Ext (name : string) :
  HasSuffix name "/" = true -> Ext name = "".
Proof.
  unfold HasSuffix, Ext, slice_from. intros H.
  apply andb_prop in H as (Hlen & Heq).
  apply String.eqb_eq in Heq.
  destruct (String.length name) as [|n] eqn:En; [discriminate Hlen|].
  change (String.length "/") with 1 in Heq.
  replace (S n - 1) with n in Heq by lia.
  replace (S n - n) with (String.length name - n) in Heq by lia.
  apply substring_last_get in Heq.
  simpl. rewrite Heq. reflexivity.
Qed.

(** So a [.png] is never a directory. *)
Lemma png_not_directory (name : string) :
  String.eqb (Ext name) ".png" = true -> HasSuffix name "/" = false.
Proof.
  intros Hp. destruct (HasSuffix name "/") eqn:Hd; [|reflexivity].
  rewrite (HasSuffix_slash_Ext name Hd) in Hp. discriminate Hp.
Qed.

Lemma write_error_png (name : string) (b : bytes) :
  String.eqb (Ext name) ".png" = true ->
  write_error name b = fault (OpEntryWrite name).
Proof. intros Hp. unfold write_error. now rewrite (png_not_directory name Hp). Qed.

(** What a directory entry is written with. *)
Lemma copy_error_directory (name : string) (data : bytes) :
  HasSuffix name "/" = true -> copy_error name data = None -> data = [].
Proof.
  intros Hd. unfold copy_error, write_error. rewrite Hd.
  destruct data; [reflexivity | discriminate].
Qed.

(** The times the archive stores. *)
Lemma stamp_survives (t : Time) : survives t -> stamp t = Some (unix t).
Proof.
  intros (Hr & Hn). unfold stamp, IsZero, uint32.
  destruct (unix t =? -62135596800)%Z eqn:E; [apply Z.eqb_eq in E; lia|].
  simpl. now rewrite Z.mod_small.
Qed.

Lemma stored_unix_range (t : Time) :
  (0 <= stored_unix (stamp t) < 2 ^ 32)%Z.
Proof.
  unfold stamp, uint32. destruct (IsZero t); simpl; [lia|].
  apply Z.mod_pos_bound. lia.
Qed.

Lemma entry_time_survives (e : Entry) (t : Time) :
  e_stamp e = stamp t -> survives t -> entry_time e = instant t.
Proof.
  intros He Hs. unfold entry_time, instant.
  rewrite He, (stamp_survives t Hs). destruct Hs as (_ & ->). reflexivity.
Qed.

(** A time that was read from an archive is stored again as it is. *)
Lemma stamp_stored_again (t t' : Time) :
  unix t' = stored_unix (stamp t) -> nsec t' = 0%Z ->
  stamp t' = Some (stored_unix (stamp t)).
Proof.
  intros Hu Hn. rewrite <- Hu. apply stamp_survives. split; [|exact Hn].
  rewrite Hu. apply stored_unix_range.
Qed.

(** An entry whose time the archive stores exactly reads back as the
    writer holds it. *)
Lemma reopen_read_back (e : Entry) :
  e_stamp e = stamp (Modified (e_header e)) ->
  survives (Modified (e_header e)) ->
  read_back e (reopen e).
Proof.
  intros He Hs. unfold read_back, reopen. simpl.
  rewrite He, (stamp_survives _ Hs). destruct Hs as (_ & Hn).
  repeat split; auto.
Qed.

(** [addPlaceholderPNGToZip] appends one entry: the name and the stored
    time of the source entry, and the placeholder as content. *)
Lemma addPlaceholderPNGToZip_ok (file : File) (zw zw' : Writer) (ph : bytes) :
  addPlaceholderPNGToZip file zw ph = Ok zw' ->
  fault (OpCreateHeader (Name (header file))) = None
  /\ write_error (Name (header file)) ph = None
  /\ dir zw' = (dir zw ++ [{| e_header := {| Name := Name (header file);
                                          Method := method_of (Name (header file));
                                          Modified := Modified (header file) |};
                           e_stamp := stamp (Modified (header file));
                           e_content := ph |}])%list
  /\ closed zw' = closed zw.
Proof.
  unfold addPlaceholderPNGToZip.
  destruct (CreateHeader zw _) as [zw1|e] eqn:EC; simpl; [|discriminate].
  intros H%wrap_result_ok.
  apply CreateHeader_ok in EC as (Hf1 & Hd & Hc).
  apply Write_ok in H as (Hf2 & Hd' & Hc').
  rewrite Hd', Hd, write_last_snoc, Hc', Hc. simpl in Hf1.
  repeat split; auto.
Qed.

(** [copyFileToZip] appends one entry: the name and the stored time of the
    source entry, and the bytes the source decodes to; the source opened
    and was read to its end without error. *)
Lemma copyFileToZip_ok (file : File) (zw zw' : Writer) :
  copyFileToZip file zw = Ok zw' ->
  exists data,
    opened file = Ok {| rc_data := data; rc_err := None |}
    /\ fault (OpCreateHeader (Name (header file))) = None
    /\ copy_error (Name (header file)) data = None
    /\ dir zw' = (dir zw ++ [copy_entry file])%list
    /\ closed zw' = closed zw.
Proof.
  unfold copyFileToZip.
  destruct (opened file) as [[data rerr]|e] eqn:EO; simpl; [|discriminate].
  destruct (CreateHeader zw _) as [zw1|e] eqn:EC; simpl; [|discriminate].
  intros H%wrap_result_ok. unfold Copy in H. simpl in H.
  apply CreateHeader_ok in EC as (Hf1 & Hd & Hc). simpl in Hf1.
  assert (copy_entry file
          = {| e_header := {| Name := Name (header file);
                              Method := method_of (Name (header file));
                              Modified := Modified (header file) |};
               e_stamp := stamp (Modified (header file));
               e_content := data |}) as Hce
    by (unfold copy_entry; now rewrite EO).
  destruct data as [|b data].
  - destruct rerr as [e|]; [discriminate|]. injection H as <-.
    exists []. rewrite Hd, Hc, Hce. repeat split; auto.
  - destruct (Write zw1 _ (b :: data)) as [zw2|e] eqn:EW; [|discriminate].
    destruct rerr as [e|]; [discriminate|]. injection H as <-.
    apply Write_ok in EW as (Hf2 & Hd' & Hc').
    exists (b :: data). rewrite Hd', Hd, write_last_snoc, Hc', Hc, Hce.
    repeat split; auto.
Qed.

(** ** The calls of package os *)

Lemma WriteFile_inv (p : string) (d : bytes) (w w' : World) (r : result unit) :
  WriteFile p d w = (r, w') ->
  trace w' = (trace w ++ [EWriteFile p d])%list
  /\ match r with
     | Ok _ => fault (OpCreate p) = None /\ fault (OpWrite p) = None
               /\ files w' = <[p := d]> (files w)
     | Err _ => files w' = files w
                \/ files w' = <[p := take (short_write p) d]> (files w)
     end.
Proof.
  unfold WriteFile. destruct (fault (OpCreate p)).
  - intros [= <- <-]. simpl. auto.
  - destruct (fault (OpWrite p)); intros [= <- <-]; simpl; auto.
Qed.

Lemma trace_emit (e : event) (w : World) :
  trace (emit e w) = (trace w ++ [e])%list.
Proof. reflexivity. Qed.

Lemma trace_Remove (p : string) (w : World) :
  trace (Remove p w) = (trace w ++ [ERemove p])%list.
Proof. unfold Remove. now destruct (fault (OpRemove p)). Qed.

Lemma files_Remove (p : string) (w : World) :
  files (Remove p w)
  = match fault (OpRemove p) with
    | None => delete p (files w)
    | Some _ => files w
    end.
Proof. unfold Remove. now destruct (fault (OpRemove p)). Qed.

(** ** The loop over the entries *)

(** The loop touches no file and only prints. *)
Lemma range_files_world (fs : list File) : forall zw ph w r w',
  range_files fs zw ph w = (r, w') ->
  files w' = files w
  /\ exists lines, trace w' = (trace w ++ map EPrint lines)%list.
Proof.
  induction fs as [|f fs IH]; intros zw ph w r w' H; simpl in H.
  - injection H as <- <-. split; [reflexivity|]. exists []. now rewrite app_nil_r.
  - destruct (shouldSkipFile _).
    + unfold bind, Print in H. apply IH in H as (Hf & lines & Ht).
      split; [exact Hf|]. eexists (_ :: lines).
      rewrite Ht, trace_emit, <- app_assoc. reflexivity.
    + destruct (String.eqb _ _); unfold bind in H; rewrite wrap_lift in H;
        (destruct (wrap_result _ _) as [zw1|e];
         [ now apply IH in H
         | injection H as <- <-; split; [reflexivity|];
           exists []; now rewrite app_nil_r ]).
Qed.

(** When the loop comes to its end, the writer has gained one entry for
    each kept entry of the input, in the order of the input. *)
Lemma range_files_ok (fs : list File) : forall zw ph w zw' w',
  range_files fs zw ph w = (Ok zw', w') ->
  exists out,
    dir zw' = (dir zw ++ out)%list
    /\ closed zw' = closed zw
    /\ Forall2 (output_of ph) (List.filter kept fs) out.
Proof.
  induction fs as [|f fs IH]; intros zw ph w zw' w' H; simpl in H.
  - injection H as <- <-. exists []. rewrite app_nil_r. repeat split. constructor.
  - unfold kept at 1. simpl.
    destruct (shouldSkipFile (Name (header f))) eqn:Es; simpl.
    + unfold bind, Print in H. now apply IH in H.
    + destruct (String.eqb (Ext (Name (header f))) ".png") eqn:Ep;
        unfold bind in H; rewrite wrap_lift in H.
      * destruct (addPlaceholderPNGToZip f zw ph) as [zw1|e] eqn:Ea;
          simpl in H; [|discriminate].
        apply addPlaceholderPNGToZip_ok in Ea as (_ & _ & Hd & Hc).
        apply IH in H as (out & Hd' & Hc' & HF).
        eexists (_ :: out). rewrite Hd', Hd, <- app_assoc, Hc', Hc.
        repeat split. constructor; [|exact HF].
        unfold output_of, is_png. rewrite Ep. simpl.
        repeat split; auto. now apply entry_time_survives.
      * destruct (copyFileToZip f zw) as [zw1|e] eqn:Ea;
          simpl in H; [|discriminate].
        apply copyFileToZip_ok in Ea as (data & Ho & _ & _ & Hd & Hc).
        apply IH in H as (out & Hd' & Hc' & HF).
        eexists (_ :: out). rewrite Hd', Hd, <- app_assoc, Hc', Hc.
        repeat split. constructor; [|exact HF].
        unfold output_of, is_png, copy_entry. rewrite Ep, Ho. simpl.
        repeat split; auto. now apply entry_time_survives.
Qed.

(** ** One archive *)

Ltac norm_trace :=
  rewrite ?trace_Remove; simpl;
  repeat (progress (rewrite ?trace_Remove, ?trace_emit, <- ?app_assoc; simpl)).

(** The three ways a run of [processZipFile] goes: it stops before the
    placeholder is read; it stops later but before anything is written; or
    it gets to [os.WriteFile], with the whole new archive in hand. *)
Lemma processZipFile_inv (zipPath php : string) (w w' : World) (r : result unit) :
  processZipFile zipPath php w = (r, w') ->
  (parses zipPath w = false
   /\ (exists e, r = Err e) /\ w' = emit (EOpen zipPath) w)
  \/ (parses zipPath w = true
      /\ (exists e, r = Err e) /\ files w' = files w
      /\ exists lines,
           trace w' = (trace w ++ EOpen zipPath :: EReadFile php
                                  :: map EPrint lines)%list)
  \/ (parses zipPath w = true
      /\ exists raw fs ph out lines,
           files w !! zipPath = Some raw /\ NewReader raw = Ok fs
           /\ files w !! php = Some ph
           /\ Forall2 (output_of ph) (List.filter kept fs) out
           /\ trace w' = (trace w ++ EOpen zipPath :: EReadFile php
                                    :: map EPrint lines
                                    ++ [EWriteFile zipPath (Bytes out)])%list
           /\ match r with
              | Ok _ => files w' = <[zipPath := Bytes out]> (files w)
              | Err e =>
                  (exists e0, e = Errorf "could not overwrite zip file" e0)
                  /\ (files w' = files w
                      \/ files w' = <[zipPath := take (short_write zipPath) (Bytes out)]>
                                      (files w))
              end).
Proof.
  unfold processZipFile, bind, wrap, lift, Open, FileStat, ReadFile, parses.
  simpl.
  destruct (fault (OpOpen zipPath)) as [e|]; simpl.
  { intros [= <- <-]. left. eauto. }
  destruct (files w !! zipPath) as [raw|] eqn:Eraw; simpl.
  2:{ intros [= <- <-]. left. destruct (fault _); eauto. }
  destruct (fault (OpFileStat zipPath)) as [e|]; simpl.
  { intros [= <- <-]. left. eauto. }
  destruct (NewReader raw) as [fs|e] eqn:Efs; simpl.
  2:{ intros [= <- <-]. left. eauto. }
  destruct (fault (OpReadFile php)) as [e|]; simpl.
  { intros [= <- <-]. right; left. repeat split; eauto. exists []. now norm_trace. }
  destruct (files w !! php) as [ph|] eqn:Eph; simpl.
  2:{ intros [= <- <-]. right; left. repeat split; eauto. exists []. now norm_trace. }
  destruct (range_files fs NewWriter ph _) as [[zw|e] w3] eqn:ER.
  2:{ intros [= <- <-]. apply range_files_world in ER as (Hf & lines & Ht).
      right; left. repeat split; eauto. exists lines.
      rewrite Ht. now norm_trace. }
  pose proof (range_files_world _ _ _ _ _ _ ER) as (Hf & lines & Ht).
  apply range_files_ok in ER as (out & Hd & Hc & HF). simpl in Hd, Hc, Hf, Ht.
  unfold Close. rewrite Hc.
  destruct (fault OpClose) as [e|]; simpl.
  { intros [= <- <-]. right; left. repeat split; eauto. exists lines.
    rewrite Ht. now norm_trace. }
  rewrite Hd.
  destruct (WriteFile zipPath (Bytes out) w3) as [r0 w4] eqn:EW.
  apply WriteFile_inv in EW as (Ht' & Hr0).
  intros HH. right; right. split; [reflexivity|].
  exists raw, fs, ph, out, lines. repeat split; auto.
  - destruct r0; injection HH as <- <-; rewrite Ht', Ht; now norm_trace.
  - destruct r0 as [[]|e0]; injection HH as <- <-.
    + destruct Hr0 as (_ & _ & ->). now rewrite Hf.
    + split; [eauto|]. rewrite <- Hf. exact Hr0.
Qed.

Lemma Forall2_In_l {A B} (R : A -> B -> Prop) (l : list A) (l' : list B) (a : A) :
  Forall2 R l l' -> In a l -> exists b, In b l' /\ R a b.
Proof.
  induction 1 as [|x y l l' HR HF IH]; intros Hin; [destruct Hin|].
  destruct Hin as [->|Hin].
  - exists y. split; [now left | exact HR].
  - destruct (IH Hin) as (b & Hb & HRb). exists b. split; [now right | exact HRb].
Qed.

(** The faults a successful run did not meet, and the loop it ran. *)
Lemma processZipFile_ok_path (zipPath php : string) (w w' : World) :
  processZipFile zipPath php w = (Ok tt, w') ->
  exists raw fs ph zw w3,
    fault (OpOpen zipPath) = None
    /\ files w !! zipPath = Some raw
    /\ fault (OpFileStat zipPath) = None
    /\ NewReader raw = Ok fs
    /\ fault (OpReadFile php) = None
    /\ files w !! php = Some ph
    /\ range_files fs NewWriter ph
         (emit (EReadFile php) (emit (EOpen zipPath) w)) = (Ok zw, w3)
    /\ fault OpClose = None
    /\ fault (OpCreate zipPath) = None
    /\ fault (OpWrite zipPath) = None
    /\ files w' = <[zipPath := Bytes (dir zw)]> (files w).
Proof.
  unfold processZipFile, bind, wrap, lift, Open, FileStat, ReadFile. simpl.
  destruct (fault (OpOpen zipPath)); simpl; [discriminate|].
  destruct (files w !! zipPath) as [raw|]; simpl; [|discriminate].
  destruct (fault (OpFileStat zipPath)); simpl; [discriminate|].
  destruct (NewReader raw) as [fs|] eqn:Efs; simpl; [|discriminate].
  destruct (fault (OpReadFile php)); simpl; [discriminate|].
  destruct (files w !! php) as [ph|]; simpl; [|discriminate].
  destruct (range_files fs NewWriter ph _) as [[zw|e] w3] eqn:ER; [|discriminate].
  pose proof (range_files_world _ _ _ _ _ _ ER) as (Hf & _).
  unfold Close. destruct (closed zw); [discriminate|].
  destruct (fault OpClose); simpl; [discriminate|].
  unfold WriteFile.
  destruct (fault (OpCreate zipPath)); simpl; [discriminate|].
  destruct (fault (OpWrite zipPath)); simpl; [discriminate|].
  intros [= <-]. exists raw, fs, ph, zw, w3. simpl. rewrite Hf. simpl.
  repeat split; auto.
Qed.

(** C1, as the code has it. When [processZipFile] succeeds, the archive at
    [zipPath] parsed into a sequence of entries, and the bytes now at
    [zipPath] are those of an archive whose entries are, one for one and in
    the same order, the input entries that [shouldSkipFile] does not pick.
    Each output entry has the name of its input entry, and the placeholder
    as content when the extension of the name is [.png].  Its time is the
    time of the input entry as the archive stores it: the seconds since
    1970 modulo [2^32], without the fraction of a second, and none at all
    for the zero time.  A time on a whole second from 1970 to early 2106 is
    kept as it is. *)
Theorem processZipFile_output (zipPath php : string) (w w' : World) :
  processZipFile zipPath php w = (Ok tt, w') ->
  exists raw fs ph out,
    files w !! zipPath = Some raw
    /\ NewReader raw = Ok fs
    /\ files w !! php = Some ph
    /\ files w' = <[zipPath := Bytes out]> (files w)
    /\ Forall2 (output_of ph) (List.filter kept fs) out.
Proof.
  intros H. apply processZipFile_inv in H
    as [(_ & (e & He) & _) | [(_ & (e & He) & _) | (_ & H)]]; try discriminate.
  destruct H as (raw & fs & ph & out & lines & H1 & H2 & H3 & H4 & _ & H5).
  exists raw, fs, ph, out. auto.
Qed.

(** What the loop did for a kept entry that is no [.png]. *)
Lemma range_files_copied (fs : list File) : forall zw ph w zw' w',
  range_files fs zw ph w = (Ok zw', w') ->
  Forall (fun f => is_png f = false ->
                   exists data,
                     opened f = Ok {| rc_data := data; rc_err := None |}
                     /\ copy_error (Name (header f)) data = None)
    (List.filter kept fs).
Proof.
  induction fs as [|f fs IH]; intros zw ph w zw' w' H; [constructor|].
  simpl in *. unfold kept at 1.
  destruct (shouldSkipFile (Name (header f))) eqn:Es; simpl.
  - unfold bind, Print in H. eapply IH; exact H.
  - destruct (String.eqb (Ext (Name (header f))) ".png") eqn:Ep;
      unfold bind in H; rewrite wrap_lift in H.
    + destruct (addPlaceholderPNGToZip f zw ph) as [zw1|e] eqn:Ea;
        simpl in H; [|discriminate].
      constructor; [|eapply IH; exact H].
      unfold is_png. rewrite Ep. discriminate.
    + destruct (copyFileToZip f zw) as [zw1|e] eqn:Ea;
        simpl in H; [|discriminate].
      constructor; [|eapply IH; exact H].
      intros _. apply copyFileToZip_ok in Ea as (data & Ho & _ & Hce & _).
      exists data. split; [exact Ho | exact Hce].
Qed.

(** C3, as the code has it. When [processZipFile] succeeds, every entry of
    the input that is kept and whose extension is not [.png] has an entry
    in the output with the same name, the time of the input entry as the
    archive stores it (the seconds since 1970 modulo [2^32]; a time on a
    whole second from 1970 to early 2106 is kept as it is), and as content
    exactly the bytes the input entry decodes to.  The method is
    [Deflate], but for a name that ends in a slash: the writer takes it for
    a directory, writes it with [Store], and accepts no bytes for it. *)
Theorem processZipFile_copies (zipPath php : string) (w w' : World) :
  processZipFile zipPath php w = (Ok tt, w') ->
  exists raw fs out,
    files w !! zipPath = Some raw
    /\ NewReader raw = Ok fs
    /\ files w' = <[zipPath := Bytes out]> (files w)
    /\ forall f, In f fs -> kept f = true -> is_png f = false ->
       exists e, In e out
         /\ Name (e_header e) = Name (header f)
         /\ e_stamp e = stamp (Modified (header f))
         /\ (survives (Modified (header f)) ->
             entry_time e = instant (Modified (header f)))
         /\ Method (e_header e)
            = (if HasSuffix (Name (header f)) "/" then Store else Deflate)
         /\ opened f = Ok {| rc_data := e_content e; rc_err := None |}
         /\ (HasSuffix (Name (header f)) "/" = true -> e_content e = []).
Proof.
  intros H.
  pose proof (processZipFile_ok_path _ _ _ _ H)
    as (raw0 & fs0 & ph0 & zw & w3 & _ & Hraw0 & _ & Hfs0 & _ & _ & ER & _).
  apply range_files_copied in ER. rewrite Forall_forall in ER.
  apply processZipFile_inv in H
    as [(_ & (e & He) & _) | [(_ & (e & He) & _) | (_ & H)]]; try discriminate.
  destruct H as (raw & fs & ph & out & lines & H1 & H2 & H3 & H4 & _ & H5).
  rewrite H1 in Hraw0. injection Hraw0 as <-.
  rewrite H2 in Hfs0. injection Hfs0 as <-.
  exists raw, fs, out. repeat split; auto.
  intros f Hin Hk Hp.
  assert (In f (List.filter kept fs)) as Hin' by (apply filter_In; auto).
  destruct (Forall2_In_l _ _ _ _ H4 Hin') as (e & He & Hn & Hs & Hsv & Hm & Hc).
  rewrite Hp in Hc. exists e. repeat split; auto.
  intros Hd.
  destruct (ER f (proj2 (list_elem_of_In _ _) Hin') Hp) as (data & Ho & Hce).
  rewrite Hc in Ho. injection Ho as <-.
  exact (copy_error_directory _ _ Hd Hce).
Qed.

(** ** Archives of plain entries only *)

Lemma range_files_copy_inv (fs : list File) : forall zw ph w zw' w',
  range_files fs zw ph w = (Ok zw', w') ->
  Forall (fun f => kept f = true /\ is_png f = false) fs ->
  Forall copyable fs.
Proof.
  induction fs as [|f fs IH]; intros zw ph w zw' w' H HF; [constructor|].
  inversion HF as [|? ? (Hk & Hp) HF']; subst. simpl in H.
  unfold kept in Hk. apply negb_true_iff in Hk. rewrite Hk in H.
  unfold is_png in Hp. rewrite Hp in H.
  unfold bind in H. rewrite wrap_lift in H.
  destruct (copyFileToZip f zw) as [zw1|e] eqn:Ec; simpl in H; [|discriminate].
  apply copyFileToZip_ok in Ec as (data & Ho & Hf1 & Hf2 & _).
  constructor; [|eapply IH; eauto].
  unfold copyable, kept, is_png. rewrite Hk, Hp. eauto 10.
Qed.

(** [copyFileToZip] on an entry it can copy. *)
Lemma copyFileToZip_run (f : File) (zw : Writer) :
  copyable f ->
  copyFileToZip f zw
  = Ok {| dir := (dir zw ++ [copy_entry f])%list; closed := closed zw |}.
Proof.
  intros (_ & _ & Hf1 & data & Ho & Hce).
  unfold copyFileToZip, CreateHeader, Copy, copy_entry. simpl.
  rewrite Ho, Hf1. simpl. destruct data as [|b data]; simpl; [reflexivity|].
  unfold Write. unfold copy_error in Hce. rewrite Hce. simpl.
  now rewrite write_last_snoc.
Qed.

Lemma range_files_copy_run (fs : list File) : forall zw ph w,
  Forall copyable fs ->
  range_files fs zw ph w
  = (Ok {| dir := (dir zw ++ map copy_entry fs)%list; closed := closed zw |}, w).
Proof.
  induction fs as [|f fs IH]; intros zw ph w HF.
  - simpl. rewrite app_nil_r. now destruct zw.
  - inversion HF as [|? ? Hc HF']; subst.
    pose proof Hc as (Hk & Hp & _).
    simpl. unfold kept in Hk. apply negb_true_iff in Hk. rewrite Hk.
    unfold is_png in Hp. rewrite Hp.
    unfold bind. rewrite wrap_lift, (copyFileToZip_run f zw Hc). simpl.
    rewrite IH by exact HF'. simpl. now rewrite <- app_assoc.
Qed.

Lemma copyable_same_entry (f : File) : copyable f -> same_entry f (copy_entry f).
Proof.
  intros (_ & _ & _ & data & Ho & _). unfold same_entry, copy_entry.
  rewrite Ho. simpl. repeat split; auto. now apply entry_time_survives.
Qed.

(** An entry that was copied can be copied again when read back, and
    reads the same after that. *)
Lemma copyable_read_back (f f2 : File) :
  copyable f -> read_back (copy_entry f) f2 ->
  copyable f2 /\ same_stored (copy_entry f) (copy_entry f2).
Proof.
  intros (Hk & Hp & Hf1 & data & Ho & Hce) (Hn & Hm & Hu & Hns & Ho2).
  unfold copy_entry in Hn, Hm, Hu, Ho2. rewrite Ho in Ho2. simpl in *.
  split.
  - unfold copyable, kept, is_png in *. rewrite Hn.
    repeat split; auto. exists data. auto.
  - unfold same_stored, copy_entry. rewrite Ho, Ho2, Hn. simpl.
    repeat split; auto.
    now rewrite (stamp_stored_again _ _ Hu Hns).
Qed.

Lemma copyable_read_back_all (fs : list File) : forall fs2,
  Forall copyable fs ->
  Forall2 read_back (map copy_entry fs) fs2 ->
  Forall copyable fs2
  /\ Forall2 same_stored (map copy_entry fs) (map copy_entry fs2).
Proof.
  induction fs as [|f fs IH]; intros fs2 HF HR.
  - inversion HR; subst. split; constructor.
  - simpl in HR. inversion HR as [|? f2 ? fs2' Hrb HR']; subst.
    inversion HF as [|? ? Hc HF']; subst.
    destruct (copyable_read_back f f2 Hc Hrb) as (Hc2 & Hs).
    destruct (IH fs2' HF' HR') as (HF2 & HS).
    split; simpl; constructor; assumption.
Qed.

(** A run on an archive of plain entries, with no fault in its way. *)
Lemma processZipFile_copy_run (zipPath php : string) (w : World)
    (raw ph : bytes) (fs : list File) :
  fault (OpOpen zipPath) = None ->
  files w !! zipPath = Some raw ->
  fault (OpFileStat zipPath) = None ->
  NewReader raw = Ok fs ->
  fault (OpReadFile php) = None ->
  files w !! php = Some ph ->
  Forall copyable fs ->
  fault OpClose = None ->
  fault (OpCreate zipPath) = None ->
  fault (OpWrite zipPath) = None ->
  exists w',
    processZipFile zipPath php w = (Ok tt, w')
    /\ files w' = <[zipPath := Bytes (map copy_entry fs)]> (files w).
Proof.
  intros H1 H2 H3 H4 H5 H6 H7 H8 H9 H10.
  unfold processZipFile, bind, wrap, lift, Open, FileStat, ReadFile. simpl.
  rewrite H1; simpl. rewrite H2; simpl. rewrite H3; simpl. rewrite H4; simpl.
  rewrite H5; simpl. rewrite H6; simpl.
  rewrite range_files_copy_run by exact H7. simpl.
  unfold Close. simpl. rewrite H8. simpl.
  unfold WriteFile. rewrite H9, H10. simpl.
  eexists. split; reflexivity.
Qed.

(** C4, as the code has it. An archive whose entries are all kept and none
    a [.png] is rewritten into an archive with, entry for entry, the same
    names and the same decoded bytes, and the times as the archive stores
    them: the seconds since 1970 modulo [2^32], without the fraction of a
    second, so that a time on a whole second from 1970 to early 2106 is
    kept as it is.  Rewriting the result once more succeeds, given that the
    reader returns what was written, and gives an archive that reads the
    same: entry for entry the same names, methods, stored times and
    bytes. *)
Theorem rewrite_plain_archive (zipPath php : string) (w w1 : World)
    (raw : bytes) (fs : list File) :
  files w !! zipPath = Some raw ->
  NewReader raw = Ok fs ->
  Forall (fun f => kept f = true /\ is_png f = false) fs ->
  processZipFile zipPath php w = (Ok tt, w1) ->
  let out := map copy_entry fs in
  files w1 = <[zipPath := Bytes out]> (files w)
  /\ Forall2 same_entry fs out
  /\ (forall fs2,
        NewReader (Bytes out) = Ok fs2 ->
        Forall2 read_back out fs2 ->
        exists w2,
          processZipFile zipPath php w1 = (Ok tt, w2)
          /\ files w2 = <[zipPath := Bytes (map copy_entry fs2)]> (files w1)
          /\ Forall2 same_stored out (map copy_entry fs2)).
Proof.
  intros Hraw Hfs Hplain Hrun.
  apply processZipFile_ok_path in Hrun
    as (raw' & fs' & ph & zw & w3 & F1 & Hraw' & F2 & Hfs' & F3 & Hph & ER
        & F4 & F5 & F6 & Hw1).
  rewrite Hraw in Hraw'. injection Hraw' as <-.
  rewrite Hfs in Hfs'. injection Hfs' as <-.
  pose proof (range_files_copy_inv _ _ _ _ _ _ ER Hplain) as Hcopy.
  rewrite range_files_copy_run in ER by exact Hcopy.
  injection ER as <- _. simpl in Hw1.
  split; [exact Hw1|]. split.
  - clear - Hcopy. induction Hcopy; constructor; auto using copyable_same_entry.
  - intros fs2 Hback Hread.
    destruct (copyable_read_back_all fs fs2 Hcopy Hread) as (Hcopy2 & Hsame).
    assert (exists ph', files w1 !! php = Some ph') as [ph' Hph'].
    { rewrite Hw1. destruct (decide (zipPath = php)) as [->|Hne].
      - rewrite lookup_insert_eq. eauto.
      - rewrite lookup_insert_ne by exact Hne. eauto. }
    destruct (processZipFile_copy_run zipPath php w1
                (Bytes (map copy_entry fs)) ph' fs2)
      as (w2 & Hrun2 & Hw2); auto.
    + rewrite Hw1. apply lookup_insert_eq.
    + exists w2. auto.
Qed.

(** ** Reading traces *)

Lemma since_app (w w' : World) (evs : list event) :
  trace w' = (trace w ++ evs)%list -> since w w' = evs.
Proof. intros H. unfold since. rewrite H. apply drop_app_length. Qed.

Lemma modified_prints (lines : list string) (tl : list event) :
  modified (map EPrint lines ++ tl) = modified tl.
Proof. induction lines; simpl; auto. Qed.

Lemma dispatched_prints (lines : list string) (tl : list event) :
  dispatched (map EPrint lines ++ tl) = dispatched tl.
Proof. induction lines; simpl; auto. Qed.

Lemma calls_prints (lines : list string) (tl : list event) :
  calls (map EPrint lines ++ tl) = calls tl.
Proof. induction lines; simpl; auto. Qed.

Lemma reads_of_prints (p : string) (lines : list string) (tl : list event) :
  reads_of p (map EPrint lines ++ tl) = reads_of p tl.
Proof. induction lines; simpl; auto. Qed.

Lemma read_paths_prints (lines : list string) (tl : list event) :
  read_paths (map EPrint lines ++ tl) = read_paths tl.
Proof. induction lines; simpl; auto. Qed.

(** ** A failing job *)




(** ** The walk *)

Lemma tree_induction (P : tree -> Prop) :
  (forall name st rd kids, Forall P kids -> P (Tree name st rd kids)) ->
  forall t, P t.
Proof.
  intros step. fix IH 1. intros [name st rd kids]. apply step.
  induction kids as [|k kids IHk]; constructor; [apply IH | exact IHk].
Qed.

Lemma emit_all_nil (w : World) : emit_all [] w = w.
Proof. destruct w. unfold emit_all. simpl. now rewrite app_nil_r. Qed.

Lemma first_error_app (a b : list (string * walk_arg)) :
  first_error (a ++ b)
  = match first_error a with Some e => Some e | None => first_error b end.
Proof.
  induction a as [|[p x] a IH]; simpl; [reflexivity|].
  now destruct (arg_err x).
Qed.

Lemma until_error_app (a b : list (string * walk_arg)) :
  until_error (a ++ b)
  = match first_error a with
    | Some _ => until_error a
    | None => (a ++ until_error b)%list
    end.
Proof.
  induction a as [|[p x] a IH]; simpl; [reflexivity|].
  destruct (arg_err x); [reflexivity|]. rewrite IH.
  now destruct (first_error a).
Qed.

Lemma until_error_all (a : list (string * walk_arg)) :
  first_error a = None -> until_error a = a.
Proof.
  induction a as [|[p x] a IH]; simpl; [reflexivity|].
  destruct (arg_err x); [discriminate|]. intros H. now rewrite IH.
Qed.

(** The errors a tree holds are never the sentinels of [Walk]. *)
Lemma first_error_calls_of (t : tree) : forall path err,
  first_error (calls_of path t) = Some err ->
  is_SkipDir err = false /\ is_SkipAll err = false.
Proof.
  induction t as [name st rd kids IH] using tree_induction.
  intros path err. simpl. destruct st as [e|mode]; simpl.
  - now intros [= <-].
  - destruct (negb _); simpl; [discriminate|].
    destruct rd as [e|]; simpl; [now intros [= <-]|].
    induction IH as [|k kids Hk _ IHk]; simpl; [discriminate|].
    rewrite first_error_app.
    destruct (first_error (calls_of _ k)) eqn:E; [|exact IHk].
    intros [= <-]. eapply Hk; eauto.
Qed.

Lemma run_calls_app (a b : list (string * walk_arg)) (w : World) :
  run_calls (a ++ b) w = run_calls b (run_calls a w).
Proof. apply fold_left_app. Qed.

Lemma walk_names_cons (v : string -> tree -> World -> option error * World)
    (path : string) (k : tree) (rest : list tree) (w : World) :
  walk_names v path (k :: rest) w
  = match v (Join path (tree_name k)) k w with
    | (None, w') => walk_names v path rest w'
    | (Some err, w') =>
        if loop_returns k err then (Some err, w') else walk_names v path rest w'
    end.
Proof. reflexivity. Qed.

Lemma loop_returns_plain (k : tree) (err : error) :
  is_SkipDir err = false -> loop_returns k err = true.
Proof.
  intros H. unfold loop_returns. rewrite H.
  destruct (tree_lstat k); [reflexivity | apply orb_true_r].
Qed.

(** The loop over the children, given that each child is walked as its
    calls say. *)
Lemma walk_names_walkFn (path : string) (kids : list tree) :
  Forall (fun k => forall path w,
            visit walkFn path k w
            = (first_error (calls_of path k),
               run_calls (until_error (calls_of path k)) w)) kids ->
  forall w,
    walk_names (visit walkFn) path kids w
    = (first_error (flat_map (fun k => calls_of (Join path (tree_name k)) k) kids),
       run_calls (until_error
                    (flat_map (fun k => calls_of (Join path (tree_name k)) k) kids)) w).
Proof.
  induction 1 as [|k kids Hk _ IH]; intros w; [reflexivity|].
  rewrite walk_names_cons, Hk. simpl flat_map.
  rewrite first_error_app, until_error_app.
  destruct (first_error (calls_of _ k)) as [err|] eqn:E.
  - apply first_error_calls_of in E as (E1 & _).
    now rewrite loop_returns_plain.
  - rewrite IH, run_calls_app. now rewrite (until_error_all _ E).
Qed.

(** What [main] makes of a tree: the walk function is called on the
    objects of the tree in walk order up to the first that carries an
    error, and that error is what the walk returns. *)
Lemma emit2_emit_all (a b : event) (w : World) :
  emit b (emit a w) = emit_all [a; b] w.
Proof. unfold emit, emit_all. simpl. now rewrite <- app_assoc. Qed.

Lemma emit3_emit_all (a b c : event) (w : World) :
  emit c (emit b (emit a w)) = emit_all [a; b; c] w.
Proof. unfold emit, emit_all. simpl. now rewrite <- !app_assoc. Qed.

Lemma visit_walkFn (t : tree) : forall path w,
  visit walkFn path t w
  = (first_error (calls_of path t), run_calls (until_error (calls_of path t)) w).
Proof.
  induction t as [name st rd kids IH] using tree_induction.
  intros path w. destruct st as [e|mode].
  - cbn. now rewrite emit2_emit_all.
  - cbn [visit calls_of].
    destruct (IsDir {| fi_name := name; fi_mode := mode |}) eqn:Ed; cbn [negb].
    + destruct rd as [e|].
      * cbn. rewrite Ed. now rewrite emit3_emit_all.
      * unfold call. cbn [walkFn]. rewrite Ed. cbn [negb andb].
        rewrite (walk_names_walkFn path kids IH).
        cbn [first_error until_error arg_err run_calls fold_left].
        f_equal. unfold run_calls. f_equal.
        unfold run_call. cbn. rewrite Ed. cbn. now rewrite emit3_emit_all.
    + unfold call. cbn [first_error until_error arg_err run_calls fold_left].
      unfold run_call. cbn [fst snd call_events]. rewrite Ed.
      rewrite <- emit2_emit_all. unfold walkFn. rewrite Ed.
      cbn [negb andb fi_name].
      destruct (String.eqb (Ext name) ".zip"); reflexivity.
Qed.

(** ** What a job and a walk leave in the trace *)

Lemma dispatched_app (a b : list event) :
  dispatched (a ++ b) = (dispatched a ++ dispatched b)%list.
Proof. induction a as [|[] a IH]; simpl; auto. now rewrite IH. Qed.

Lemma calls_app (a b : list event) : calls (a ++ b) = (calls a ++ calls b)%list.
Proof. induction a as [|[] a IH]; simpl; auto. now rewrite IH. Qed.

Lemma modified_app (a b : list event) :
  modified (a ++ b) = (modified a ++ modified b)%list.
Proof. induction a as [|[] a IH]; simpl; auto; now rewrite IH. Qed.

Lemma read_paths_app (a b : list event) :
  read_paths (a ++ b) = (read_paths a ++ read_paths b)%list.
Proof. induction a as [|[] a IH]; simpl; auto; now rewrite IH. Qed.

Lemma reads_of_app (p : string) (a b : list event) :
  reads_of p (a ++ b) = reads_of p a + reads_of p b.
Proof. induction a as [|[] a IH]; simpl; auto. rewrite IH. lia. Qed.

Lemma stdout_app (a b : list event) : stdout (a ++ b) = (stdout a ++ stdout b)%list.
Proof. induction a as [|[] a IH]; simpl; auto. now rewrite IH. Qed.

Lemma job_events_intro (zipPath php : string) (parsed : bool)
    (lines : list string) (pre tl : list event) :
  dispatched pre = [] -> calls pre = [] -> modified pre = [] ->
  Forall (fun q => q = zipPath \/ q = php) (read_paths pre) ->
  reads_of php pre = (if parsed then 1 else 0) ->
  dispatched tl = [] -> calls tl = [] ->
  Forall (fun q => q = zipPath) (modified tl) ->
  read_paths tl = [] -> reads_of php tl = 0 ->
  job_events zipPath php parsed (pre ++ map EPrint lines ++ tl).
Proof.
  intros D1 C1 M1 R1 N1 D2 C2 M2 R2 N2. unfold job_events.
  rewrite dispatched_app, calls_app, modified_app, read_paths_app, reads_of_app.
  rewrite dispatched_prints, calls_prints, modified_prints, read_paths_prints,
    reads_of_prints.
  rewrite D1, D2, C1, C2, M1, R2, N1, N2, ?app_nil_r. simpl.
  repeat split; auto; destruct parsed; lia.
Qed.

Lemma goroutine_events (zipPath php : string) (w : World) :
  exists evs,
    trace (goroutine zipPath php w) = (trace w ++ evs)%list
    /\ job_events zipPath php (parses zipPath w) evs.
Proof.
  unfold goroutine.
  destruct (processZipFile zipPath php w) as [r w'] eqn:H.
  assert (Hrefl : forall s, (if String.eqb s s then 1 else 0) = 1)
    by (intros s; now rewrite String.eqb_refl).
  apply processZipFile_inv in H
    as [(-> & (e & ->) & ->) | [(-> & (e & ->) & Hf & lines & Ht) | (-> & H)]].
  - eexists. split; [norm_trace; reflexivity|].
    apply (job_events_intro zipPath php false [] [EOpen zipPath]
             [EPrint _; ERemove zipPath]); simpl; auto.
  - eexists. split; [norm_trace; rewrite Ht; norm_trace; reflexivity|].
    apply (job_events_intro zipPath php true lines
             [EOpen zipPath; EReadFile php] [EPrint _; ERemove zipPath]);
      simpl; auto. rewrite Hrefl. reflexivity.
  - destruct H as (raw & fs & ph & out & lines & _ & _ & _ & _ & Ht & Hr).
    destruct r as [u|e].
    + eexists. split; [rewrite Ht; norm_trace; reflexivity|].
      apply (job_events_intro zipPath php true lines
               [EOpen zipPath; EReadFile php] [EWriteFile zipPath _]);
        simpl; auto. rewrite Hrefl. reflexivity.
    + eexists. split; [norm_trace; rewrite Ht; norm_trace; reflexivity|].
      apply (job_events_intro zipPath php true lines
               [EOpen zipPath; EReadFile php]
               [EWriteFile zipPath _; EPrint _; ERemove zipPath]);
        simpl; auto. rewrite Hrefl. reflexivity.
Qed.

Lemma started_app (a b : list (string * walk_arg)) :
  started (a ++ b) = (started a ++ started b)%list.
Proof.
  induction a as [|[p [info [e|]|e]] a IH]; simpl; auto.
  destruct (is_target _); simpl; now rewrite IH.
Qed.

Lemma walk_events_app (a b : list (string * walk_arg)) (e1 e2 : list event) :
  walk_events a e1 -> walk_events b e2 -> walk_events (a ++ b) (e1 ++ e2).
Proof.
  intros (C1 & D1 & M1 & R1 & N1) (C2 & D2 & M2 & R2 & N2). unfold walk_events.
  rewrite calls_app, dispatched_app, modified_app, read_paths_app, reads_of_app,
    started_app, C1, C2, D1, D2, length_app.
  repeat split; auto.
  - apply Forall_app. split; eapply Forall_impl; eauto; simpl; intros q Hq;
      apply in_or_app; auto.
  - apply Forall_app. split; eapply Forall_impl; eauto; simpl;
      intros q [Hq| ->]; auto; left; apply in_or_app; auto.
  - lia.
Qed.

Lemma trace_emit_all (evs : list event) (w : World) :
  trace (emit_all evs w) = (trace w ++ evs)%list.
Proof. reflexivity. Qed.

Lemma walkFn_plain (p : string) (info : FileInfo) (w : World) :
  walkFn p (Visited info None) w
  = if is_target (p, info)
    then (None, goroutine p placeholderPNGPath (emit (EGo p) w))
    else (None, w).
Proof. reflexivity. Qed.

Lemma run_call_events (w : World) (c : string * walk_arg) :
  exists evs,
    trace (run_call w c) = (trace w ++ evs)%list /\ walk_events [c] evs.
Proof.
  destruct c as [p a]. unfold run_call. cbn [fst snd].
  assert (Hce : calls (call_events (p, a)) = [(p, a)]
                /\ dispatched (call_events (p, a)) = []
                /\ modified (call_events (p, a)) = []
                /\ read_paths (call_events (p, a)) = []
                /\ reads_of placeholderPNGPath (call_events (p, a)) = 0).
  { destruct a as [info err|e]; simpl; [destruct (IsDir info)|]; simpl; auto. }
  destruct Hce as (C & D & Mo & R & N).
  destruct a as [info [e|]|e].
  - exists (call_events (p, Visited info (Some e))). split; [reflexivity|].
    unfold walk_events. rewrite C, D, Mo, R, N. simpl. repeat split; auto.
  - rewrite walkFn_plain.
    destruct (is_target (p, info)) eqn:Et.
    + destruct (goroutine_events p placeholderPNGPath
                  (emit (EGo p) (emit_all (call_events (p, Visited info None)) w)))
        as (jevs & Ht & (JD & JC & JM & JR & JN)).
      exists (call_events (p, Visited info None) ++ EGo p :: jevs)%list.
      split.
      * cbn [snd]. rewrite Ht, trace_emit, trace_emit_all.
        now rewrite <- !app_assoc.
      * unfold walk_events.
        rewrite calls_app, dispatched_app, modified_app, read_paths_app,
          reads_of_app, C, D, Mo, R, N. simpl. rewrite Et, JD, JC. simpl.
        repeat split; auto.
        -- eapply Forall_impl; [exact JM|]. simpl. intros q ->. auto.
        -- eapply Forall_impl; [exact JR|]. simpl. intros q [->| ->]; auto.
        -- rewrite JN. destruct (parses _ _); lia.
    + exists (call_events (p, Visited info None)). split; [reflexivity|].
      unfold walk_events. rewrite C, D, Mo, R, N. simpl. rewrite Et.
      repeat split; auto.
  - exists (call_events (p, LstatFailed e)). split; [reflexivity|].
    unfold walk_events. rewrite C, D, Mo, R, N. simpl. repeat split; auto.
Qed.

Lemma run_calls_events (cs : list (string * walk_arg)) : forall w,
  exists evs,
    trace (run_calls cs w) = (trace w ++ evs)%list /\ walk_events cs evs.
Proof.
  induction cs as [|c cs IH]; intros w.
  - exists []. split; [now rewrite app_nil_r|].
    unfold walk_events. simpl. repeat split; auto.
  - destruct (run_call_events w c) as (e1 & T1 & W1).
    destruct (IH (run_call w c)) as (e2 & T2 & W2).
    exists (e1 ++ e2)%list. split.
    + change (run_calls (c :: cs) w) with (run_calls cs (run_call w c)).
      now rewrite T2, T1, <- app_assoc.
    + apply (walk_events_app [c] cs); assumption.
Qed.

(** ** The whole run *)

Lemma Stat_world (p : string) (w : World) : snd (Stat p w) = emit (EStat p) w.
Proof. unfold Stat. destruct (fault _); [reflexivity|]. now destruct (_ !! _). Qed.

Lemma main_eq (rootDir : string) (t : tree) (w : World) :
  main rootDir t w
  = if placeholder_missing w
    then (0%Z, emit (EPrint ("Placeholder PNG file not found at "
                             ++ placeholderPNGPath ++ nl))
                 (emit (EStat placeholderPNGPath) w))
    else (0%Z, walk_and_wait rootDir t (emit (EStat placeholderPNGPath) w)).
Proof.
  unfold main, placeholder_missing.
  pose proof (Stat_world placeholderPNGPath w) as H.
  destruct (Stat placeholderPNGPath w) as [r w1]. simpl in H. subst w1. reflexivity.
Qed.

Lemma Walk_walkFn (rootDir : string) (t : tree) (w : World) :
  Walk rootDir t walkFn w
  = (first_error (calls_of rootDir t),
     run_calls (until_error (calls_of rootDir t)) w).
Proof.
  unfold Walk. rewrite visit_walkFn.
  destruct (first_error (calls_of rootDir t)) as [err|] eqn:E; [|reflexivity].
  apply first_error_calls_of in E as (-> & ->). reflexivity.
Qed.

Lemma calls_of_listed (t : tree) : forall path, Forall listed_ok (calls_of path t).
Proof.
  induction t as [name st rd kids IH] using tree_induction.
  intros path. simpl. destruct st as [e|mode].
  - repeat constructor.
  - destruct (IsDir _) eqn:Ed; simpl; [|repeat constructor].
    destruct rd as [e|]; [repeat constructor; exact Ed|].
    constructor; [exact I|].
    induction IH as [|k kids Hk _ IHk]; simpl; [constructor|].
    apply Forall_app. split; [apply Hk | exact IHk].
Qed.

Lemma until_error_listed (cs : list (string * walk_arg)) :
  Forall listed_ok cs -> Forall listed_ok (until_error cs).
Proof.
  induction 1 as [|[p a] cs Hc _ IH]; simpl; [constructor|].
  destruct (arg_err a); constructor; auto.
Qed.

Lemma started_visited (cs : list (string * walk_arg)) :
  Forall listed_ok cs ->
  started cs = map fst (List.filter is_target (visited cs)).
Proof.
  induction 1 as [|[p a] cs Hc _ IH]; simpl; [reflexivity|].
  destruct a as [info [e|]|e]; simpl; auto.
  - unfold listed_ok in Hc. simpl in Hc.
    unfold is_target at 1. simpl. rewrite Hc. simpl. exact IH.
  - destruct (is_target (p, info)); simpl; now rewrite IH.
Qed.

Lemma walk_and_wait_trace (rootDir : string) (t : tree) (w : World) :
  exists evs,
    trace (walk_and_wait rootDir t w)
    = (trace w ++ evs ++ closing_lines (first_error (calls_of rootDir t)))%list
    /\ walk_events (until_error (calls_of rootDir t)) evs.
Proof.
  unfold walk_and_wait. rewrite Walk_walkFn.
  destruct (run_calls_events (until_error (calls_of rootDir t)) w) as (evs & Ht & Hw).
  exists evs. split; [|exact Hw].
  destruct (first_error _); norm_trace; rewrite Ht; now norm_trace.
Qed.

(** The events of a run of [main]. *)
Lemma main_trace (rootDir : string) (t : tree) (w : World) :
  (placeholder_missing w = true
   /\ since w (snd (main rootDir t w))
      = [EStat placeholderPNGPath;
         EPrint ("Placeholder PNG file not found at " ++ placeholderPNGPath ++ nl)])
  \/ (placeholder_missing w = false
      /\ exists evs,
           since w (snd (main rootDir t w))
           = (EStat placeholderPNGPath
              :: evs ++ closing_lines (first_error (calls_of rootDir t)))%list
           /\ walk_events (until_error (calls_of rootDir t)) evs).
Proof.
  rewrite main_eq. destruct (placeholder_missing w); [left | right];
    (split; [reflexivity|]).
  - apply since_app. now norm_trace.
  - destruct (walk_and_wait_trace rootDir t (emit (EStat placeholderPNGPath) w))
      as (evs & Ht & Hw).
    exists evs. split; [|exact Hw]. apply since_app. cbn [snd]. rewrite Ht.
    now norm_trace.
Qed.

Lemma closing_lines_quiet (err : option error) :
  calls (closing_lines err) = []
  /\ dispatched (closing_lines err) = []
  /\ modified (closing_lines err) = []
  /\ read_paths (closing_lines err) = []
  /\ reads_of placeholderPNGPath (closing_lines err) = 0.
Proof. destruct err; simpl; auto. Qed.


Lemma emit_all_app (a b : list event) (w : World) :
  emit_all b (emit_all a w) = emit_all (a ++ b) w.
Proof. unfold emit_all. simpl. now rewrite <- app_assoc. Qed.

(** [calls_of] is the walk itself: with a walk function that always
    returns nil, [Walk] makes exactly these calls, in this order. *)
Lemma visit_all (t : tree) : forall path w,
  exists evs,
    visit (fun _ _ w => (None, w)) path t w = (None, emit_all evs w)
    /\ calls evs = calls_of path t.
Proof.
  induction t as [name st rd kids IH] using tree_induction.
  intros path w. destruct st as [e|mode].
  - eexists. split; [cbn [visit]; unfold call; cbv beta; now rewrite emit2_emit_all | reflexivity].
  - cbn [visit calls_of].
    destruct (IsDir {| fi_name := name; fi_mode := mode |}) eqn:Ed; cbn [negb].
    + destruct rd as [e|].
      * eexists. split; [unfold call; cbv beta; now rewrite emit3_emit_all | reflexivity].
      * unfold call. cbv beta. rewrite emit3_emit_all.
        assert (forall w0, exists evs,
                  walk_names (visit (fun _ _ w => (None, w))) path kids w0
                  = (None, emit_all evs w0)
                  /\ calls evs
                     = flat_map (fun k => calls_of (Join path (tree_name k)) k) kids)
          as Hloop.
        { clear - IH. induction IH as [|k kids Hk _ IHk]; intros w0.
          - exists []. split; [now rewrite emit_all_nil | reflexivity].
          - rewrite walk_names_cons.
            destruct (Hk (Join path (tree_name k)) w0) as (e1 & -> & C1).
            destruct (IHk (emit_all e1 w0)) as (e2 & -> & C2).
            exists (e1 ++ e2)%list. split; [now rewrite emit_all_app|].
            rewrite calls_app, C1, C2. reflexivity. }
        destruct (Hloop (emit_all
                    [ELstat path; EReadDir path;
                     EWalkFn path (Visited {| fi_name := name; fi_mode := mode |} None)]
                    w)) as (evs & -> & C).
        eexists. split; [now rewrite emit_all_app|].
        rewrite calls_app, C. reflexivity.
    + eexists. split; [unfold call; cbv beta; now rewrite emit2_emit_all | reflexivity].
Qed.

(** C9, as the code has it. When the walk meets an error (an [Lstat] that
    fails, a directory that cannot be listed), the walk function hands the
    error back and [filepath.Walk] stops there: of the calls the whole tree
    stands for, [main] makes those up to and including the first with an
    error, and none after it — not for the failing branch, and not for the
    rest of the tree either.  The error is printed, and the last line the
    run prints is the line of completion.  Without any such error the whole
    tree is walked. *)
Theorem walk_stops_at_first_error (rootDir : string) (t : tree) (w : World) :
  placeholder_missing w = false ->
  let tr := since w (snd (main rootDir t w)) in
  calls tr = until_error (calls_of rootDir t)
  /\ match first_error (calls_of rootDir t) with
     | Some e =>
         In ("Error walking the directory: " ++ Error e ++ nl) (stdout tr)
         /\ last (stdout tr) = Some ("Processing complete." ++ nl)
     | None => calls tr = calls_of rootDir t
     end.
Proof.
  intros Hm tr. subst tr.
  destruct (main_trace rootDir t w) as [(Hm' & _) | (_ & evs & -> & Hw)];
    [congruence|].
  destruct Hw as (C & _).
  destruct (closing_lines_quiet (first_error (calls_of rootDir t))) as (C' & _).
  assert (calls (EStat placeholderPNGPath
                 :: evs ++ closing_lines (first_error (calls_of rootDir t)))
          = until_error (calls_of rootDir t)) as Hcalls.
  { cbn [calls]. now rewrite calls_app, C, C', app_nil_r. }
  split; [exact Hcalls|].
  destruct (first_error (calls_of rootDir t)) as [e|] eqn:E.
  - cbn [stdout]. rewrite stdout_app. cbn [closing_lines stdout]. split.
    + apply in_or_app. right. now left.
    + change [("Error walking the directory: " ++ Error e ++ nl)%string;
              ("Processing complete." ++ nl)%string]
        with ([("Error walking the directory: " ++ Error e ++ nl)%string]
              ++ [("Processing complete." ++ nl)%string])%list.
      rewrite app_assoc. apply last_snoc.
  - rewrite Hcalls. now apply until_error_all.
Qed.

(** C6, as the code has it. [main] itself only checks that the placeholder
    exists: its first call is [os.Stat], not a read.  The bytes are read
    from disk inside each rewrite job: a job reads the placeholder once
    when its archive opened and parsed, and not at all when it failed
    before.  So a run reads the placeholder at most once for each goroutine
    it starts, and never when it starts none. *)
Theorem placeholder_read_per_job (rootDir : string) (t : tree) (w : World) :
  let tr := since w (snd (main rootDir t w)) in
  (exists tl, tr = EStat placeholderPNGPath :: tl)
  /\ reads_of placeholderPNGPath tr <= length (dispatched tr)
  /\ (forall zipPath w0,
        reads_of placeholderPNGPath
          (since w0 (goroutine zipPath placeholderPNGPath w0))
        = if parses zipPath w0 then 1 else 0).
Proof.
  intros tr. subst tr. split; [|split].
  - destruct (main_trace rootDir t w) as [(_ & ->) | (_ & evs & -> & _)]; eauto.
  - destruct (main_trace rootDir t w) as [(_ & ->) | (_ & evs & -> & Hw)];
      [simpl; lia|].
    destruct Hw as (_ & D & _ & _ & N).
    destruct (closing_lines_quiet (first_error (calls_of rootDir t)))
      as (_ & D' & _ & _ & N').
    cbn [reads_of dispatched].
    rewrite reads_of_app, dispatched_app, D, D', N', app_nil_r. lia.
  - intros zipPath w0.
    destruct (goroutine_events zipPath placeholderPNGPath w0)
      as (evs & Ht & (_ & _ & _ & _ & N)).
    now rewrite (since_app _ _ _ Ht).
Qed.

(** C7. When [os.Stat] reports that [./placeholder.png] does not exist,
    [main] prints one line saying so and returns (exit status 0): the walk
    never starts, no file is opened, read, written or removed, and the
    files are as they were. *)
Theorem main_without_placeholder (rootDir : string) (t : tree) (w : World) :
  placeholder_missing w = true ->
  exists w',
    main rootDir t w = (0%Z, w')
    /\ files w' = files w
    /\ since w w'
       = [EStat "./placeholder.png";
          EPrint ("Placeholder PNG file not found at ./placeholder.png" ++ nl)].
Proof.
  intros Hm. rewrite main_eq, Hm. eexists. split; [reflexivity|].
  split; [reflexivity|]. apply since_app. now norm_trace.
Qed.

(** ** The wait group *)

(** What every moment of a run satisfies: the tokens in the channel count
    the goroutines between [Add] and [Done], and fit its capacity. *)
Lemma sched_invariant (zipPaths : list string) (w : World) (s : sched) :
  steps (sched_init zipPaths w) s ->
  Size (swg s) = Size (New NumCPU)
  /\ current (swg s) = Z.of_nat (length (running s))
  /\ (current (swg s) <= Size (swg s))%Z.
Proof.
  intros Hsteps. remember (sched_init zipPaths w) as s0 eqn:Es0.
  induction Hsteps as [s|s1 s2 s3 _ IH Hstep]; subst.
  - simpl. repeat split; try reflexivity. destruct (0 <? NumCPU)%Z eqn:E.
    + apply Z.ltb_lt in E. lia.
    + unfold MaxInt32. lia.
  - specialize (IH eq_refl). destruct IH as (HS & HC & HL).
    destruct Hstep as [s zipPath rest Htodo Hroom | s before zipPath after Hrun];
      simpl.
    + rewrite length_app. simpl. repeat split; [exact HS | lia | lia].
    + rewrite Hrun, length_app in HC. simpl in HC.
      rewrite length_app. repeat split; [exact HS | lia | lia].
Qed.

Lemma Size_New_NumCPU : (0 < NumCPU)%Z -> Size (New NumCPU) = NumCPU.
Proof. intros H. simpl. apply Z.ltb_lt in H. now rewrite H. Qed.

(** C10. With [N = runtime.NumCPU()] processing units ([N] is at least 1),
    at every moment of a run at most [N] goroutines are between
    [swg.Add()] and [swg.Done()], that is, at most [N] rewrite jobs are
    under way; and when [N] are, no further job starts: the only move left
    is for a running job to finish, which leaves the archives still to
    come where they are and frees a slot. *)
Theorem at_most_NumCPU_jobs (zipPaths : list string) (w : World) (s : sched) :
  (0 < NumCPU)%Z ->
  steps (sched_init zipPaths w) s ->
  (Z.of_nat (length (running s)) <= NumCPU)%Z
  /\ (Z.of_nat (length (running s)) = NumCPU ->
      forall s', step s s' ->
        todo s' = todo s /\ S (length (running s')) = length (running s)).
Proof.
  intros HN Hsteps.
  destruct (sched_invariant _ _ _ Hsteps) as (HS & HC & HL).
  rewrite (Size_New_NumCPU HN) in HS. split; [lia|].
  intros Hfull s' Hstep.
  destruct Hstep as [s zipPath rest Htodo Hroom | s before zipPath after Hrun];
    simpl.
  - lia.
  - split; [reflexivity|]. rewrite Hrun, !length_app. simpl. lia.
Qed.

(** The schedule [main] is modelled with — each goroutine run to its end as
    soon as it is started — is one the wait group admits, whatever the number
    of processing units. *)
Lemma sequential_schedule (zipPaths : list string) : forall w,
  (0 < NumCPU)%Z ->
  steps (sched_init zipPaths w)
    (sched_init []
       (fold_left (fun w p => goroutine p placeholderPNGPath (emit (EGo p) w))
          zipPaths w)).
Proof.
  intros w HN.
  assert (forall rest w0,
            steps (sched_init zipPaths w) (sched_init rest w0) ->
            steps (sched_init zipPaths w)
              (sched_init []
                 (fold_left (fun w p => goroutine p placeholderPNGPath (emit (EGo p) w))
                    rest w0))) as H.
  { intros rest. induction rest as [|p rest IH]; intros w0 Hs; [exact Hs|].
    simpl. apply IH.
    eapply steps_step; [eapply steps_step; [exact Hs|]|].
    - apply (step_go (sched_init (p :: rest) w0) p rest); [reflexivity|].
      simpl. apply Z.ltb_lt in HN. rewrite HN. lia.
    - match goal with
      | |- step ?s _ =>
          pose proof (step_done s [] p [] eq_refl) as Hd
      end.
      simpl in Hd. unfold sched_init.
      replace (New NumCPU) with (Done (Add (New NumCPU))) at 2;
        [exact Hd | unfold Done, Add, New; simpl; f_equal; lia]. }
  apply (H zipPaths). constructor.
Qed.

(** ** More about one archive *)

Lemma emit_all_cons (e : event) (evs : list event) (w : World) :
  emit_all evs (emit e w) = emit_all (e :: evs) w.
Proof. unfold emit_all, emit. simpl. now rewrite <- app_assoc. Qed.

Lemma kept_false (f : File) :
  shouldSkipFile (Name (header f)) = true -> kept f = false.
Proof. unfold kept. now intros ->. Qed.

Lemma kept_true (f : File) :
  shouldSkipFile (Name (header f)) = false -> kept f = true.
Proof. unfold kept. now intros ->. Qed.

(** The loop, run to its end over entries the writer takes. *)
Lemma range_files_run (fs : list File) : forall zw ph w,
  Forall writable (List.filter kept fs) ->
  range_files fs zw ph w
  = (Ok {| dir := (dir zw ++ rewrite_entries ph fs)%list; closed := closed zw |},
     emit_all (map EPrint (excluded_lines fs)) w).
Proof.
  induction fs as [|f fs IH]; intros zw ph w HF.
  - simpl. rewrite app_nil_r, emit_all_nil. now destruct zw.
  - unfold rewrite_entries, excluded_lines in *. simpl in *.
    destruct (shouldSkipFile (Name (header f))) eqn:Es.
    + rewrite (kept_false f Es) in *. simpl in *.
      unfold bind, Print. rewrite IH by exact HF. now rewrite emit_all_cons.
    + rewrite (kept_true f Es) in *. simpl in *.
      inversion HF as [|? ? (Hf1 & Hr) HF']; subst.
      unfold rewrite_entry at 1. unfold is_png in *.
      destruct (String.eqb (Ext (Name (header f))) ".png") eqn:Ep;
        unfold bind; rewrite wrap_lift.
      * unfold addPlaceholderPNGToZip, CreateHeader, Write. simpl.
        rewrite Hf1. simpl. rewrite (write_error_png _ _ Ep), Hr. simpl.
        rewrite IH by exact HF'. simpl.
        now rewrite write_last_snoc, <- app_assoc.
      * assert (copyable f) as Hc
          by (unfold copyable, is_png; rewrite Ep; auto using kept_true).
        rewrite (copyFileToZip_run f zw Hc). simpl.
        rewrite IH by exact HF'. simpl.
        now rewrite <- app_assoc.
Qed.

(** A loop that came to its end met only entries the writer takes. *)
Lemma range_files_ok_writable (fs : list File) : forall zw ph w zw' w',
  range_files fs zw ph w = (Ok zw', w') ->
  Forall writable (List.filter kept fs).
Proof.
  induction fs as [|f fs IH]; intros zw ph w zw' w' H; [constructor|].
  simpl in *. destruct (shouldSkipFile (Name (header f))) eqn:Es.
  - rewrite (kept_false f Es). unfold bind, Print in H. eapply IH; eauto.
  - rewrite (kept_true f Es).
    destruct (String.eqb (Ext (Name (header f))) ".png") eqn:Ep;
      unfold bind in H; rewrite wrap_lift in H.
    + destruct (addPlaceholderPNGToZip f zw ph) as [zw1|e] eqn:Ea;
        simpl in H; [|discriminate].
      constructor; [|eapply IH; eauto].
      unfold addPlaceholderPNGToZip in Ea.
      destruct (CreateHeader zw _) as [zw2|e] eqn:Ec; simpl in Ea; [|discriminate].
      apply wrap_result_ok in Ea.
      apply CreateHeader_ok in Ec as (Hf1 & _).
      apply Write_ok in Ea as (Hf2 & _). simpl in Hf1, Hf2.
      rewrite (write_error_png _ _ Ep) in Hf2.
      unfold writable, is_png. rewrite Ep. auto.
    + destruct (copyFileToZip f zw) as [zw1|e] eqn:Ea;
        simpl in H; [|discriminate].
      constructor; [|eapply IH; eauto].
      apply copyFileToZip_ok in Ea as (data & Ho & Hf1 & Hf2 & _).
      unfold writable, is_png. rewrite Ep. eauto 10.
Qed.

(** A rewrite that has all it needs, run to its end. *)
Lemma processZipFile_run (zipPath php : string) (w : World)
    (raw ph : bytes) (fs : list File) :
  rewrite_ready zipPath php w ->
  files w !! zipPath = Some raw ->
  NewReader raw = Ok fs ->
  files w !! php = Some ph ->
  processZipFile zipPath php w
  = (Ok tt,
     {| files := <[zipPath := Bytes (rewrite_entries ph fs)]> (files w);
        trace := (trace w ++ EOpen zipPath :: EReadFile php
                    :: map EPrint (excluded_lines fs)
                    ++ [EWriteFile zipPath (Bytes (rewrite_entries ph fs))])%list |}).
Proof.
  intros (F1 & F2 & F3 & F4 & F5 & F6 & raw' & fs' & Hraw' & Hfs' & _ & HW)
    Hraw Hfs Hph.
  rewrite Hraw in Hraw'. injection Hraw' as <-.
  rewrite Hfs in Hfs'. injection Hfs' as <-.
  unfold processZipFile, bind, wrap, lift, Open, FileStat, ReadFile. simpl.
  rewrite F1; simpl. rewrite Hraw; simpl. rewrite F2; simpl. rewrite Hfs; simpl.
  rewrite F3; simpl. rewrite Hph; simpl.
  rewrite range_files_run by exact HW. simpl.
  unfold Close. simpl. rewrite F4. simpl.
  unfold WriteFile. rewrite F5, F6. simpl.
  unfold set_files. simpl. now norm_trace.
Qed.

(** X1. [processZipFile] returns nil exactly when nothing is in its way:
    none of its library calls fails, the archive is there and parses, the
    placeholder can be read, and every kept entry is taken by the writer
    and, unless it is a [.png], can be read to its end.  Entries that are
    left out, and the bytes of [.png] entries, are never read: they cannot
    make a rewrite fail. *)
Theorem processZipFile_succeeds_iff (zipPath php : string) (w : World) :
  (exists w', processZipFile zipPath php w = (Ok tt, w'))
  <-> rewrite_ready zipPath php w.
Proof.
  split.
  - intros (w' & H).
    apply processZipFile_ok_path in H
      as (raw & fs & ph & zw & w3 & F1 & Hraw & F2 & Hfs & F3 & Hph & ER
          & F4 & F5 & F6 & _).
    unfold rewrite_ready. repeat split; auto.
    exists raw, fs. repeat split; eauto.
    eapply range_files_ok_writable; eauto.
  - intros H.
    pose proof H as (_ & _ & _ & _ & _ & _ & raw & fs & Hraw & Hfs & (ph & Hph) & _).
    eexists. eapply processZipFile_run; eauto.
Qed.

(** X3. A rewrite that succeeds prints one line for each entry it leaves
    out, in the order of the archive, and nothing else. *)
Theorem excluded_names_are_printed (zipPath php : string) (w w' : World)
    (raw : bytes) (fs : list File) :
  files w !! zipPath = Some raw ->
  NewReader raw = Ok fs ->
  processZipFile zipPath php w = (Ok tt, w') ->
  stdout (since w w')
  = map (fun f => "Excluding file " ++ Name (header f) ++ nl)
      (List.filter (fun f => shouldSkipFile (Name (header f))) fs).
Proof.
  intros Hraw Hfs H.
  assert (rewrite_ready zipPath php w) as Hready.
  { apply processZipFile_ok_path in H
      as (raw' & fs' & ph & zw & w3 & F1 & Hraw' & F2 & Hfs' & F3 & Hph & ER
          & F4 & F5 & F6 & _).
    unfold rewrite_ready. repeat split; auto.
    exists raw', fs'. repeat split; eauto.
    eapply range_files_ok_writable; eauto. }
  pose proof Hready as (_ & _ & _ & _ & _ & _ & _ & _ & _ & _ & (ph & Hph) & _).
  rewrite (processZipFile_run zipPath php w raw ph fs Hready Hraw Hfs Hph) in H.
  injection H as <-.
  rewrite (since_app _ _ (EOpen zipPath :: EReadFile php
                          :: map EPrint (excluded_lines fs)
                          ++ [EWriteFile zipPath (Bytes (rewrite_entries ph fs))])%list)
    by reflexivity.
  cbn [stdout]. rewrite stdout_app. simpl. rewrite app_nil_r.
  unfold excluded_lines.
  assert (forall l : list string, stdout (map EPrint l) = l) as ->
    by (induction l; simpl; congruence).
  f_equal. apply filter_ext. intros f. unfold kept. now rewrite negb_involutive.
Qed.

Lemma rewrite_entry_reopen (ph : bytes) (f : File) :
  rewrite_entry ph (reopen (rewrite_entry ph f)) = rewrite_entry ph f.
Proof.
  unfold rewrite_entry, reopen, is_png. simpl.
  now destruct (String.eqb (Ext (Name (header f))) ".png").
Qed.

Lemma writable_reopen (ph : bytes) (f : File) :
  writable f -> writable (reopen (rewrite_entry ph f)).
Proof.
  intros (Hf1 & Hr). unfold writable, rewrite_entry, reopen, is_png in *.
  simpl. split; [exact Hf1|].
  destruct (String.eqb (Ext (Name (header f))) ".png"); [exact Hr|].
  destruct Hr as (data & -> & Hce). simpl. eauto.
Qed.

Lemma filter_kept_reopen (ph : bytes) (fs : list File) :
  List.filter kept (map reopen (rewrite_entries ph fs))
  = map reopen (rewrite_entries ph fs).
Proof.
  unfold rewrite_entries. induction fs as [|f fs IH]; [reflexivity|].
  simpl. destruct (kept f) eqn:Hk; [|exact IH].
  simpl. change (kept (reopen (rewrite_entry ph f))) with (kept f).
  rewrite Hk. now rewrite IH.
Qed.

Lemma rewrite_entries_again (ph : bytes) (fs : list File) :
  rewrite_entries ph (map reopen (rewrite_entries ph fs)) = rewrite_entries ph fs.
Proof.
  unfold rewrite_entries at 1. rewrite filter_kept_reopen.
  unfold rewrite_entries. rewrite !map_map.
  apply map_ext. intros f. apply rewrite_entry_reopen.
Qed.

Lemma excluded_lines_again (ph : bytes) (fs : list File) :
  excluded_lines (map reopen (rewrite_entries ph fs)) = [].
Proof.
  unfold excluded_lines.
  assert (List.filter (fun f => negb (kept f)) (map reopen (rewrite_entries ph fs))
          = []) as ->; [|reflexivity].
  unfold rewrite_entries. induction fs as [|f fs IH]; [reflexivity|].
  simpl. destruct (kept f) eqn:Hk; [|exact IH].
  simpl. change (kept (reopen (rewrite_entry ph f))) with (kept f).
  now rewrite Hk.
Qed.

Lemma processZipFile_ready (zipPath php : string) (w w' : World) :
  processZipFile zipPath php w = (Ok tt, w') -> rewrite_ready zipPath php w.
Proof.
  intros H.
  apply processZipFile_ok_path in H
    as (raw & fs & ph & zw & w3 & F1 & Hraw & F2 & Hfs & F3 & Hph & ER
        & F4 & F5 & F6 & _).
  unfold rewrite_ready. repeat split; auto.
  exists raw, fs. repeat split; eauto.
  eapply range_files_ok_writable; eauto.
Qed.

(** X2. Rewriting is idempotent for every archive, whatever its entries:
    when a rewrite succeeded, the placeholder is a file other than the
    archive, and the archive written reads back as written, a second
    rewrite succeeds, leaves the same bytes on disk, and prints nothing,
    there being nothing left to leave out. *)
Theorem rewrite_twice (zipPath php : string) (w w1 : World)
    (raw ph : bytes) (fs : list File) :
  files w !! zipPath = Some raw ->
  NewReader raw = Ok fs ->
  files w !! php = Some ph ->
  php <> zipPath ->
  processZipFile zipPath php w = (Ok tt, w1) ->
  NewReader (Bytes (rewrite_entries ph fs))
    = Ok (map reopen (rewrite_entries ph fs)) ->
  files w1 = <[zipPath := Bytes (rewrite_entries ph fs)]> (files w)
  /\ exists w2,
       processZipFile zipPath php w1 = (Ok tt, w2)
       /\ files w2 = files w1
       /\ stdout (since w1 w2) = [].
Proof.
  intros Hraw Hfs Hph Hne Hrun Hback.
  pose proof (processZipFile_ready _ _ _ _ Hrun) as Hready.
  rewrite (processZipFile_run zipPath php w raw ph fs Hready Hraw Hfs Hph) in Hrun.
  injection Hrun as <-. simpl. split; [reflexivity|].
  set (w1 := {| files := <[zipPath := Bytes (rewrite_entries ph fs)]> (files w);
                trace := _ |}).
  assert (files w1 !! zipPath = Some (Bytes (rewrite_entries ph fs))) as Hraw1
    by (simpl; apply lookup_insert_eq).
  assert (files w1 !! php = Some ph) as Hph1
    by (simpl; rewrite lookup_insert_ne by congruence; exact Hph).
  assert (rewrite_ready zipPath php w1) as Hready1.
  { destruct Hready as (F1 & F2 & F3 & F4 & F5 & F6 & raw' & fs' & Hr' & Hf' & _ & HW).
    rewrite Hraw in Hr'. injection Hr' as <-.
    rewrite Hfs in Hf'. injection Hf' as <-.
    unfold rewrite_ready. repeat split; auto.
    exists (Bytes (rewrite_entries ph fs)), (map reopen (rewrite_entries ph fs)).
    repeat split; eauto.
    rewrite filter_kept_reopen. unfold rewrite_entries. rewrite map_map.
    clear - HW. induction HW; constructor; auto using writable_reopen. }
  eexists. split.
  - apply (processZipFile_run zipPath php w1 _ ph _ Hready1 Hraw1 Hback Hph1).
  - rewrite rewrite_entries_again, excluded_lines_again. simpl. split.
    + apply insert_insert_eq.
    + unfold since. simpl. rewrite drop_app_length. reflexivity.
Qed.

(** What a failing rewrite leaves of the files: nothing has changed, or
    the final [os.WriteFile] failed and left the first bytes of the new
    archive in place of the old one. *)
Lemma processZipFile_err_files (zipPath php : string) (w w1 : World) (e : error) :
  processZipFile zipPath php w = (Err e, w1) ->
  files w1 = files w
  \/ exists raw fs ph,
       fault (OpReadFile php) = None
       /\ files w !! zipPath = Some raw
       /\ NewReader raw = Ok fs
       /\ files w !! php = Some ph
       /\ Forall writable (List.filter kept fs)
       /\ files w1
          = <[zipPath := take (short_write zipPath) (Bytes (rewrite_entries ph fs))]>
              (files w).
Proof.
  unfold processZipFile, bind, wrap, lift, Open, FileStat, ReadFile. simpl.
  destruct (fault (OpOpen zipPath)); simpl; [intros [= <- <-]; now left|].
  destruct (files w !! zipPath) as [raw|] eqn:Hraw; simpl;
    [|intros [= <- <-]; now left].
  destruct (fault (OpFileStat zipPath)); simpl; [intros [= <- <-]; now left|].
  destruct (NewReader raw) as [fs|] eqn:Hfs; simpl; [|intros [= <- <-]; now left].
  destruct (fault (OpReadFile php)) eqn:Hrd; simpl; [intros [= <- <-]; now left|].
  destruct (files w !! php) as [ph|] eqn:Hph; simpl; [|intros [= <- <-]; now left].
  destruct (range_files fs NewWriter ph _) as [[zw|e1] w3] eqn:ER.
  2:{ intros [= <- <-]. apply range_files_world in ER as (Hf & _). now left. }
  pose proof (range_files_ok_writable _ _ _ _ _ _ ER) as HW.
  rewrite (range_files_run fs _ _ _ HW) in ER. injection ER as <- <-.
  unfold Close. simpl.
  destruct (fault OpClose); simpl; [intros [= <- <-]; now left|].
  unfold WriteFile.
  destruct (fault (OpCreate zipPath)); simpl; [intros [= <- <-]; now left|].
  destruct (fault (OpWrite zipPath)); simpl; [|discriminate].
  intros [= <- <-]. right. exists raw, fs, ph. simpl. repeat split; auto.
Qed.

(** What a job leaves of the files: the archive rewritten; or, after a
    failure, what [os.Remove] makes of what the failed run left. *)
Lemma goroutine_files_cases (zipPath php : string) (w : World) :
  (exists e w1,
     processZipFile zipPath php w = (Err e, w1)
     /\ files (goroutine zipPath php w)
        = match fault (OpRemove zipPath) with
          | None => delete zipPath (files w)
          | Some _ => files w1
          end)
  \/ (exists raw fs ph,
        files w !! zipPath = Some raw
        /\ NewReader raw = Ok fs
        /\ files w !! php = Some ph
        /\ rewrite_ready zipPath php w
        /\ files (goroutine zipPath php w)
           = <[zipPath := Bytes (rewrite_entries ph fs)]> (files w)).
Proof.
  unfold goroutine.
  destruct (processZipFile zipPath php w) as [[[]|e] w1] eqn:H.
  - right. pose proof (processZipFile_ready _ _ _ _ H) as Hready.
    pose proof Hready as (_ & _ & _ & _ & _ & _ & raw & fs & Hraw & Hfs & (ph & Hph) & _).
    rewrite (processZipFile_run zipPath php w raw ph fs Hready Hraw Hfs Hph) in H.
    injection H as <-. exists raw, fs, ph. auto.
  - left. exists e, w1. split; [reflexivity|].
    rewrite files_Remove. destruct (fault (OpRemove zipPath)); [reflexivity|].
    simpl. apply processZipFile_err_files in H
      as [-> | (raw & fs & ph & _ & _ & _ & _ & _ & ->)];
      [reflexivity | apply delete_insert_eq].
Qed.


(** X5. One entry that cannot be read fails the whole archive: when a kept
    entry that is no [.png] fails to open, or its reader ends with an
    error, [processZipFile] returns an error without having written
    anything, and the job calls [os.Remove] on the archive: the archive is
    gone when the removal goes through, and is as it was when the removal
    is refused. *)
Theorem unreadable_entry_fails_job (zipPath php : string) (w : World)
    (raw : bytes) (fs : list File) (f : File) :
  files w !! zipPath = Some raw ->
  NewReader raw = Ok fs ->
  In f fs ->
  kept f = true ->
  is_png f = false ->
  (forall data, opened f <> Ok {| rc_data := data; rc_err := None |}) ->
  (exists e w1, processZipFile zipPath php w = (Err e, w1) /\ files w1 = files w)
  /\ files (goroutine zipPath php w)
     = match fault (OpRemove zipPath) with
       | None => delete zipPath (files w)
       | Some _ => files w
       end.
Proof.
  intros Hraw Hfs Hin Hk Hp Hbad.
  assert (~ Forall writable (List.filter kept fs)) as Hnw.
  { rewrite Forall_forall. intros HW.
    destruct (HW f) as (_ & Hr).
    - apply list_elem_of_In, filter_In. auto.
    - rewrite Hp in Hr. destruct Hr as (data & Ho & _). exact (Hbad data Ho). }
  destruct (goroutine_files_cases zipPath php w)
    as [(e & w1 & He & Hf) | (raw' & fs' & ph & Hraw' & Hfs' & _ & Hready & _)].
  - assert (files w1 = files w) as Hw1.
    { apply processZipFile_err_files in He
        as [Hw1 | (raw' & fs' & ph & _ & Hraw' & Hfs' & _ & HW & _)]; [exact Hw1|].
      rewrite Hraw in Hraw'. injection Hraw' as <-.
      rewrite Hfs in Hfs'. injection Hfs' as <-. contradiction. }
    split; [eauto|]. rewrite Hf. now rewrite Hw1.
  - exfalso.
    destruct Hready as (_ & _ & _ & _ & _ & _ & raw2 & fs2 & Hr' & Hf' & _ & HW).
    rewrite Hraw in Hr'. injection Hr' as <-.
    rewrite Hfs in Hf'. injection Hf' as <-. contradiction.
Qed.

(** *** The run of [main] is one of these schedules *)

(** What a job does to the files depends on the files alone. *)
Lemma range_files_result (fs : list File) : forall zw ph w w0,
  fst (range_files fs zw ph w) = fst (range_files fs zw ph w0).
Proof.
  induction fs as [|f fs IH]; intros zw ph w w0; simpl; [reflexivity|].
  destruct (shouldSkipFile _).
  - unfold bind, Print. apply IH.
  - destruct (String.eqb _ _); unfold bind; rewrite !wrap_lift;
      (destruct (wrap_result _ _); [apply IH | reflexivity]).
Qed.

Lemma processZipFile_files (zipPath php : string) (w w0 : World) :
  files w = files w0 ->
  fst (processZipFile zipPath php w) = fst (processZipFile zipPath php w0)
  /\ files (snd (processZipFile zipPath php w))
     = files (snd (processZipFile zipPath php w0)).
Proof.
  destruct w as [f tr], w0 as [f0 tr0]. simpl. intros <-.
  unfold processZipFile, bind, wrap, lift, Open, FileStat, ReadFile. simpl.
  destruct (fault (OpOpen zipPath)); simpl; [auto|].
  destruct (f !! zipPath) as [raw|]; simpl; [|auto].
  destruct (fault (OpFileStat zipPath)); simpl; [auto|].
  destruct (NewReader raw) as [fs|]; simpl; [|auto].
  destruct (fault (OpReadFile php)); simpl; [auto|].
  destruct (f !! php) as [ph|]; simpl; [|auto].
  match goal with
  | |- context [range_files fs NewWriter ph ?a] =>
      match goal with
      | |- context [range_files fs NewWriter ph ?b] =>
          lazymatch a with
          | b => fail
          | _ => pose proof (range_files_result fs NewWriter ph a b) as Hr;
                 destruct (range_files fs NewWriter ph a) as [r1 w1] eqn:E1;
                 destruct (range_files fs NewWriter ph b) as [r2 w2] eqn:E2
          end
      end
  end.
  simpl in Hr. subst r2.
  apply range_files_world in E1 as (F1 & _).
  apply range_files_world in E2 as (F2 & _). simpl in F1, F2.
  destruct r1 as [zw|e]; [|simpl; split; congruence].
  destruct (Close zw) as [zw'|e]; [|simpl; split; congruence].
  unfold WriteFile.
  destruct (fault (OpCreate zipPath)); simpl; [split; congruence|].
  destruct (fault (OpWrite zipPath)); simpl; (split; congruence).
Qed.

Lemma goroutine_files (zipPath php : string) (w w0 : World) :
  files w = files w0 ->
  files (goroutine zipPath php w) = files (goroutine zipPath php w0).
Proof.
  intros Hf. unfold goroutine.
  destruct (processZipFile_files zipPath php w w0 Hf) as (Hr & Hfs).
  destruct (processZipFile zipPath php w) as [r1 w1].
  destruct (processZipFile zipPath php w0) as [r2 w2].
  simpl in Hr, Hfs. subst r2.
  destruct r1; [exact Hfs|]. rewrite !files_Remove. simpl. now rewrite Hfs.
Qed.

Lemma run_calls_files (cs : list (string * walk_arg)) : forall w w0,
  files w = files w0 ->
  files (run_calls cs w)
  = files (fold_left (fun w p => goroutine p placeholderPNGPath (emit (EGo p) w))
             (started cs) w0).
Proof.
  induction cs as [|[p a] cs IH]; intros w w0 Hf; [exact Hf|].
  change (run_calls ((p, a) :: cs) w) with (run_calls cs (run_call w (p, a))).
  destruct a as [info [e|]|e]; cbn [started]; try (apply IH; exact Hf).
  unfold run_call. cbn [fst snd]. rewrite walkFn_plain.
  destruct (is_target (p, info)); cbn [snd fold_left]; apply IH.
  - now apply goroutine_files.
  - exact Hf.
Qed.

(** The files [main] leaves behind are those of a complete run of the
    scheduler on the archives [main] starts goroutines for: all of them
    started, all of them done. *)
Lemma main_is_a_schedule (rootDir : string) (t : tree) (w : World) :
  (0 < NumCPU)%Z ->
  placeholder_missing w = false ->
  exists s,
    steps (sched_init (dispatched (since w (snd (main rootDir t w))))
             (emit (EStat placeholderPNGPath) w)) s
    /\ todo s = [] /\ running s = []
    /\ files (world s) = files (snd (main rootDir t w)).
Proof.
  intros HN Hm.
  destruct (main_trace rootDir t w) as [(Hm' & _) | (_ & evs & Hs & Hw)];
    [congruence|].
  destruct Hw as (_ & D & _).
  destruct (closing_lines_quiet (first_error (calls_of rootDir t)))
    as (_ & D' & _).
  assert (dispatched (since w (snd (main rootDir t w)))
          = started (until_error (calls_of rootDir t))) as ->.
  { rewrite Hs. cbn [dispatched]. now rewrite dispatched_app, D, D', app_nil_r. }
  eexists. split; [apply sequential_schedule; exact HN|].
  split; [reflexivity|]. split; [reflexivity|]. cbn [world sched_init].
  rewrite main_eq, Hm. cbn [snd]. unfold walk_and_wait. rewrite Walk_walkFn.
  symmetry.
  destruct (first_error (calls_of rootDir t)); cbn [files emit];
    now apply run_calls_files.
Qed.

(** ** Jobs side by side *)

Lemma goroutine_frame (p php q : string) (w : World) :
  q <> p -> files (goroutine p php w) !! q = files w !! q.
Proof.
  intros Hq.
  destruct (goroutine_files_cases p php w)
    as [(e & w1 & He & ->) | (raw & fs & ph & _ & _ & _ & _ & ->)].
  - destruct (fault (OpRemove p)); [|now rewrite lookup_delete_ne by congruence].
    apply processZipFile_err_files in He
      as [-> | (raw & fs & ph & _ & _ & _ & _ & _ & ->)];
      [reflexivity | now rewrite lookup_insert_ne by congruence].
  - now rewrite lookup_insert_ne.
Qed.

Lemma rewrite_ready_local (p php : string) (w w0 : World) :
  files w !! p = files w0 !! p ->
  files w !! php = files w0 !! php ->
  rewrite_ready p php w -> rewrite_ready p php w0.
Proof.
  intros Hp Hph (F1 & F2 & F3 & F4 & F5 & F6 & raw & fs & Hraw & Hfs & Hsome & HW).
  unfold rewrite_ready. repeat split; auto.
  exists raw, fs. rewrite <- Hp, <- Hph. auto.
Qed.

Lemma ready_not_failing (p php : string) (w w1 : World) (e : error) :
  rewrite_ready p php w -> processZipFile p php w = (Err e, w1) -> False.
Proof.
  intros Hready H.
  pose proof Hready as (_ & _ & _ & _ & _ & _ & raw & fs & Hraw & Hfs & (ph & Hph) & _).
  rewrite (processZipFile_run p php w raw ph fs Hready Hraw Hfs Hph) in H.
  discriminate.
Qed.

(** What a rewrite returns, and what it leaves at the path of the
    archive, depend on what it finds there and at the path of the
    placeholder, and on nothing else. *)
Lemma processZipFile_local (p php : string) (w w0 : World) :
  files w !! p = files w0 !! p ->
  files w !! php = files w0 !! php ->
  fst (processZipFile p php w) = fst (processZipFile p php w0)
  /\ files (snd (processZipFile p php w)) !! p
     = files (snd (processZipFile p php w0)) !! p.
Proof.
  intros Hp Hph.
  unfold processZipFile, bind, wrap, lift, Open, FileStat, ReadFile. simpl.
  destruct (fault (OpOpen p)); simpl; [auto|].
  rewrite <- Hp.
  destruct (files w !! p) as [raw|] eqn:Hraw; simpl; [|split; congruence].
  destruct (fault (OpFileStat p)); simpl; [split; congruence|].
  destruct (NewReader raw) as [fs|]; simpl; [|split; congruence].
  destruct (fault (OpReadFile php)); simpl; [split; congruence|].
  rewrite <- Hph.
  destruct (files w !! php) as [ph|]; simpl; [|split; congruence].
  match goal with
  | |- context [range_files fs NewWriter ph ?a] =>
      match goal with
      | |- context [range_files fs NewWriter ph ?b] =>
          lazymatch a with
          | b => fail
          | _ => pose proof (range_files_result fs NewWriter ph a b) as Hr;
                 destruct (range_files fs NewWriter ph a) as [r1 w1] eqn:E1;
                 destruct (range_files fs NewWriter ph b) as [r2 w2] eqn:E2
          end
      end
  end.
  simpl in Hr. subst r2.
  apply range_files_world in E1 as (F1 & _).
  apply range_files_world in E2 as (F2 & _). simpl in F1, F2.
  destruct r1 as [zw|e]; [|simpl; split; congruence].
  destruct (Close zw) as [zw'|e]; [|simpl; split; congruence].
  unfold WriteFile.
  destruct (fault (OpCreate p)); simpl; [split; congruence|].
  destruct (fault (OpWrite p)); simpl;
    (split; [reflexivity | now rewrite !lookup_insert_eq]).
Qed.

(** What a job leaves at its path depends on what it finds there and at
    the path of the placeholder, and on nothing else. *)
Lemma goroutine_local (p php : string) (w w0 : World) :
  files w !! p = files w0 !! p ->
  files w !! php = files w0 !! php ->
  files (goroutine p php w) !! p = files (goroutine p php w0) !! p.
Proof.
  intros Hp Hph. unfold goroutine.
  destruct (processZipFile_local p php w w0 Hp Hph) as (Hr & Hfs).
  destruct (processZipFile p php w) as [r1 w1].
  destruct (processZipFile p php w0) as [r2 w2].
  simpl in Hr, Hfs. subst r2.
  destruct r1; [exact Hfs|]. rewrite !files_Remove.
  destruct (fault (OpRemove p)); [exact Hfs|].
  now rewrite !lookup_delete_eq.
Qed.

(** X6. Two jobs on different archives, neither of them the placeholder,
    leave the same files whichever runs first. *)
Theorem jobs_commute (p q php : string) (w : World) :
  p <> q -> php <> p -> php <> q ->
  files (goroutine p php (goroutine q php w))
  = files (goroutine q php (goroutine p php w)).
Proof.
  intros Hpq Hp Hq. apply map_eq. intros k.
  destruct (decide (k = p)) as [->|Hkp]; [|destruct (decide (k = q)) as [->|Hkq]].
  - rewrite (goroutine_frame q php p) by exact Hpq.
    apply goroutine_local; apply goroutine_frame; congruence.
  - rewrite (goroutine_frame p php q) by congruence.
    symmetry. apply goroutine_local; apply goroutine_frame; congruence.
  - now rewrite !goroutine_frame.
Qed.

Lemma one_by_one_cons (p : string) (l : list string) (w : World) :
  one_by_one (p :: l) w
  = one_by_one l (goroutine p placeholderPNGPath (emit (EGo p) w)).
Proof. reflexivity. Qed.

Lemma one_by_one_frame (l : list string) : forall w q,
  q ∉ l -> files (one_by_one l w) !! q = files w !! q.
Proof.
  induction l as [|p l IH]; intros w q Hq; [reflexivity|].
  apply not_elem_of_cons in Hq as (Hqp & Hql).
  rewrite one_by_one_cons, IH by exact Hql.
  now rewrite goroutine_frame by exact Hqp.
Qed.





(** X8. The scheduler is never stuck and every run ends: from any moment
    of a run, either all is done or a move is possible; and every move
    brings the end nearer. *)
Theorem scheduler_never_stuck (zipPaths : list string) (w : World) (s : sched) :
  (0 < NumCPU)%Z ->
  steps (sched_init zipPaths w) s ->
  (complete s \/ exists s', step s s')
  /\ (forall s', step s s' -> moves_left s' < moves_left s).
Proof.
  intros HN Hsteps.
  destruct (sched_invariant _ _ _ Hsteps) as (HS & HC & _).
  rewrite (Size_New_NumCPU HN) in HS. split.
  - destruct (running s) as [|p run] eqn:Hrun.
    + destruct (todo s) as [|p rest] eqn:Htodo.
      * left. split; assumption.
      * right. eexists. apply (step_go s p rest Htodo). simpl in HC. lia.
    + right. eexists. apply (step_done s [] p run). exact Hrun.
  - intros s' Hstep. unfold moves_left.
    destruct Hstep as [s zipPath rest Htodo Hroom | s before zipPath after Hrun];
      simpl.
    + rewrite Htodo, length_app. simpl. lia.
    + rewrite Hrun, !length_app. simpl. lia.
Qed.

(** ** More about the whole run *)

(** The files [main] leaves are those of the jobs it starts, one by one. *)
Lemma main_files (rootDir : string) (t : tree) (w : World) :
  files (snd (main rootDir t w))
  = files (one_by_one (dispatched (since w (snd (main rootDir t w)))) w).
Proof.
  destruct (main_trace rootDir t w) as [(Hm & Hs) | (Hm & evs & Hs & Hw)];
    rewrite Hs; rewrite main_eq, Hm.
  - reflexivity.
  - destruct Hw as (_ & D & _).
    destruct (closing_lines_quiet (first_error (calls_of rootDir t)))
      as (_ & D' & _).
    cbn [dispatched snd]. rewrite dispatched_app, D, D', app_nil_r.
    unfold walk_and_wait. rewrite Walk_walkFn.
    assert (files (run_calls (until_error (calls_of rootDir t))
                     (emit (EStat placeholderPNGPath) w))
            = files (one_by_one (started (until_error (calls_of rootDir t))) w))
      as <- by (now apply run_calls_files).
    now destruct (first_error (calls_of rootDir t)).
Qed.

(** A job that cannot read the placeholder fails before it writes. *)
Lemma goroutine_without_placeholder (p : string) (w : World) (e : error) :
  fault (OpReadFile placeholderPNGPath) = Some e ->
  files (goroutine p placeholderPNGPath w)
  = match fault (OpRemove p) with
    | None => delete p (files w)
    | Some _ => files w
    end.
Proof.
  intros Hf.
  destruct (goroutine_files_cases p placeholderPNGPath w)
    as [(e1 & w1 & He & ->) | (raw & fs & ph & _ & _ & _ & Hready & _)].
  - destruct (fault (OpRemove p)); [|reflexivity].
    destruct (processZipFile_err_files _ _ _ _ _ He)
      as [Hw1 | (raw & fs & ph & Hrd & _)]; [exact Hw1 | congruence].
  - destruct Hready as (_ & _ & F3 & _). congruence.
Qed.

Lemma one_by_one_unreadable (e : error) (l : list string) : forall w q,
  fault (OpReadFile placeholderPNGPath) = Some e ->
  q ∈ l ->
  files (one_by_one l w) !! q
  = match fault (OpRemove q) with
    | None => None
    | Some _ => files w !! q
    end.
Proof.
  induction l as [|p l IH]; intros w q Hf Hq; [now apply elem_of_nil in Hq|].
  rewrite one_by_one_cons.
  assert (files (goroutine p placeholderPNGPath (emit (EGo p) w)) !! q
          = if decide (q = p)
            then match fault (OpRemove q) with
                 | None => None
                 | Some _ => files w !! q
                 end
            else files w !! q) as Hjob.
  { destruct (decide (q = p)) as [->|Hne].
    - rewrite (goroutine_without_placeholder p _ e Hf).
      destruct (fault (OpRemove p)); [reflexivity | apply lookup_delete_eq].
    - now rewrite goroutine_frame by exact Hne. }
  destruct (decide (q ∈ l)) as [Hin|Hnin].
  - rewrite (IH _ q Hf Hin). destruct (fault (OpRemove q)) eqn:Hr; [|reflexivity].
    rewrite Hjob. now destruct (decide (q = p)).
  - assert (q = p) as Heq
      by (apply elem_of_cons in Hq as [Hq|Hq]; [exact Hq | contradiction]).
    rewrite one_by_one_frame by exact Hnin.
    rewrite Hjob. now rewrite decide_True by exact Heq.
Qed.

(** X10. A placeholder that is there but cannot be read fails every job:
    when [os.ReadFile] fails on the placeholder, each job fails before it
    writes and calls [os.Remove] on its archive.  After the run, at a path
    a goroutine was started for there is no file when the removal went
    through, and the file of before when it was refused. *)
Theorem unreadable_placeholder_fails_every_job (rootDir : string) (t : tree)
    (w : World) (e : error) (q : string) :
  fault (OpReadFile placeholderPNGPath) = Some e ->
  q ∈ dispatched (since w (snd (main rootDir t w))) ->
  files (snd (main rootDir t w)) !! q
  = match fault (OpRemove q) with
    | None => None
    | Some _ => files w !! q
    end.
Proof.
  intros Hf Hq. rewrite main_files. now apply (one_by_one_unreadable e).
Qed.


(** X12. Which archives get a job is read off the tree alone: goroutines
    are started, in walk order, for the objects of the tree that are no
    directories and are named [*.zip], up to the first object the walk
    fails on; when the walk fails on none, that is every such object of
    the tree. *)
Theorem main_dispatch_list (rootDir : string) (t : tree) (w : World) :
  placeholder_missing w = false ->
  let tr := since w (snd (main rootDir t w)) in
  dispatched tr
  = map fst (List.filter is_target (visited (until_error (calls_of rootDir t))))
  /\ (first_error (calls_of rootDir t) = None ->
      dispatched tr
      = map fst (List.filter is_target (visited (calls_of rootDir t)))).
Proof.
  intros Hm tr. subst tr.
  destruct (main_trace rootDir t w) as [(Hm' & _) | (_ & evs & -> & Hw)];
    [congruence|].
  destruct Hw as (_ & D & _).
  destruct (closing_lines_quiet (first_error (calls_of rootDir t)))
    as (_ & D' & _).
  cbn [dispatched]. rewrite dispatched_app, D, D', app_nil_r.
  assert (started (until_error (calls_of rootDir t))
          = map fst (List.filter is_target
                       (visited (until_error (calls_of rootDir t))))) as ->
    by (apply started_visited, until_error_listed, calls_of_listed).
  split; [reflexivity|].
  intros He. now rewrite (until_error_all _ He).
Qed.

End Program.

(** ** The name filter *)

Lemma append_cons (c : ascii) (s t : string) :
  String c s ++ t = String c (s ++ t).
Proof. reflexivity. Qed.

Lemma append_nil (t : string) : "" ++ t = t.
Proof. reflexivity. Qed.

Lemma substring_0_app (s t : string) :
  substring 0 (String.length s) (s ++ t) = s.
Proof.
  induction s as [|c s IH].
  - rewrite append_nil. destruct t; reflexivity.
  - rewrite append_cons. simpl. now rewrite IH.
Qed.

Lemma substring_skip_app (a t : string) (n : nat) :
  substring (String.length a) n (a ++ t) = substring 0 n t.
Proof.
  induction a as [|c a IH]; [reflexivity|].
  rewrite append_cons. simpl. exact IH.
Qed.

Lemma substring_occurrence (a sub b : string) :
  substring (String.length a) (String.length sub) (a ++ sub ++ b) = sub.
Proof. rewrite substring_skip_app. apply substring_0_app. Qed.

Lemma substring_0_prefix (s : string) : forall l,
  String.length (substring 0 l s) = l ->
  exists b, s = substring 0 l s ++ b.
Proof.
  induction s as [|c s IH]; intros [|l] Hl; simpl in *; try discriminate.
  - now exists "".
  - now exists (String c s).
  - injection Hl as Hl. destruct (IH l Hl) as [b E].
    exists b. rewrite append_cons. now f_equal.
Qed.

Lemma substring_decompose (s : string) : forall m l,
  String.length (substring m l s) = l ->
  exists a b, s = a ++ substring m l s ++ b.
Proof.
  induction s as [|c s IH]; intros m l Hl.
  - exists "", "". destruct m, l; simpl in *; try reflexivity; discriminate.
  - destruct m as [|m].
    + destruct (substring_0_prefix _ _ Hl) as [b E]. now exists "", b.
    + simpl in Hl. destruct (IH m l Hl) as (a & b & E).
      exists (String c a), b. rewrite append_cons. now f_equal.
Qed.

Lemma string_length_app (a b : string) :
  String.length (a ++ b) = String.length a + String.length b.
Proof.
  induction a as [|c a IH]; [reflexivity|].
  rewrite append_cons. simpl. now rewrite IH.
Qed.

Lemma get_app_r (pre s : string) (k : nat) :
  get (String.length pre + k) (pre ++ s) = get k s.
Proof. rewrite Nat.add_comm. symmetry. apply append_correct2. Qed.

Lemma get_lt (s : string) : forall k,
  k < String.length s -> exists c, get k s = Some c.
Proof.
  induction s as [|c s IH]; intros k Hk; simpl in Hk; [lia|].
  destruct k as [|k]; simpl; [eauto | apply IH; lia].
Qed.

Lemma substring_0_length (s : string) : substring 0 (String.length s) s = s.
Proof. induction s as [|c s IH]; simpl; [reflexivity | now rewrite IH]. Qed.

Lemma slice_from_app (pre s : string) :
  slice_from (pre ++ s) (String.length pre) = s.
Proof.
  unfold slice_from. rewrite string_length_app.
  replace (String.length pre + String.length s - String.length pre)
    with (String.length s) by lia.
  rewrite substring_skip_app. apply substring_0_length.
Qed.

Lemma not_separator (c : ascii) : c <> "/"%char -> IsPathSeparator c = false.
Proof. intros H. unfold IsPathSeparator, Separator. now apply Ascii.eqb_neq. Qed.

(** The loop of [filepath.Ext] over a tail free of dots and slashes. *)
Lemma Ext_loop_dot (pre e : string) :
  (forall k, get k e <> Some "/"%char) ->
  (forall k, get k e <> Some "."%char) ->
  forall k, k <= String.length e ->
  Ext_loop (pre ++ String "." e) (String.length pre + S k) = String "." e.
Proof.
  intros Hs Hd. induction k as [|k IH]; intros Hk.
  - replace (String.length pre + 1) with (S (String.length pre + 0)) by lia.
    cbn [Ext_loop]. rewrite get_app_r. cbn [get].
    change (IsPathSeparator "."%char) with false.
    change (Ascii.eqb "." "."%char) with true. cbv iota.
    replace (String.length pre + 0) with (String.length pre) by lia.
    apply slice_from_app.
  - replace (String.length pre + S (S k)) with (S (String.length pre + S k)) by lia.
    cbn [Ext_loop]. rewrite get_app_r. cbn [get].
    destruct (get_lt e k) as [c Hc]; [lia|]. rewrite Hc.
    rewrite not_separator by (intros ->; exact (Hs k Hc)).
    assert (Ascii.eqb c "." = false) as ->
      by (apply Ascii.eqb_neq; intros ->; exact (Hd k Hc)).
    apply IH. lia.
Qed.

Lemma Ext_loop_slash (pre e : string) :
  (forall k, get k e <> Some "/"%char) ->
  (forall k, get k e <> Some "."%char) ->
  forall k, k <= String.length e ->
  Ext_loop (pre ++ String "/" e) (String.length pre + S k) = "".
Proof.
  intros Hs Hd. induction k as [|k IH]; intros Hk.
  - replace (String.length pre + 1) with (S (String.length pre + 0)) by lia.
    cbn [Ext_loop]. rewrite get_app_r. reflexivity.
  - replace (String.length pre + S (S k)) with (S (String.length pre + S k)) by lia.
    cbn [Ext_loop]. rewrite get_app_r. cbn [get].
    destruct (get_lt e k) as [c Hc]; [lia|]. rewrite Hc.
    rewrite not_separator by (intros ->; exact (Hs k Hc)).
    assert (Ascii.eqb c "." = false) as ->
      by (apply Ascii.eqb_neq; intros ->; exact (Hd k Hc)).
    apply IH. lia.
Qed.

(** [filepath.Ext] is the suffix that starts at the last dot of the last
    element of the path... *)
Lemma Ext_last_dot (pre e : string) :
  (forall k, get k e <> Some "/"%char) ->
  (forall k, get k e <> Some "."%char) ->
  Ext (pre ++ String "." e) = String "." e.
Proof.
  intros Hs Hd. unfold Ext. rewrite string_length_app. simpl String.length.
  now apply Ext_loop_dot.
Qed.

(** ... and empty when the last element has no dot. *)
Lemma Ext_no_dot_in_last (pre e : string) :
  (forall k, get k e <> Some "/"%char) ->
  (forall k, get k e <> Some "."%char) ->
  Ext (pre ++ String "/" e) = "".
Proof.
  intros Hs Hd. unfold Ext. rewrite string_length_app. simpl String.length.
  now apply Ext_loop_slash.
Qed.

Lemma trimmed_len_keeps (path : string) (n : nat) (c : ascii) :
  get n path = Some c -> c <> "/"%char -> trimmed_len path (S n) = S n.
Proof. intros Hc Hne. simpl. rewrite Hc. now rewrite not_separator. Qed.

Lemma last_elem_start_slash (pre seg : string) :
  (forall k, get k seg <> Some "/"%char) ->
  forall k, k <= String.length seg ->
  last_elem_start (pre ++ String "/" seg) (String.length pre + S k)
  = S (String.length pre).
Proof.
  intros Hs. induction k as [|k IH]; intros Hk.
  - replace (String.length pre + 1) with (S (String.length pre + 0)) by lia.
    cbn [last_elem_start]. rewrite get_app_r. cbn. lia.
  - replace (String.length pre + S (S k)) with (S (String.length pre + S k)) by lia.
    cbn [last_elem_start]. rewrite get_app_r. cbn [get].
    destruct (get_lt seg k) as [c Hc]; [lia|]. rewrite Hc.
    rewrite not_separator by (intros ->; exact (Hs k Hc)).
    apply IH. lia.
Qed.

(** [filepath.Base] is the last element of the path. *)
Lemma Base_last_element (pre seg : string) :
  seg <> "" ->
  (forall k, get k seg <> Some "/"%char) ->
  Base (pre ++ String "/" seg) = seg.
Proof.
  intros Hne Hs. unfold Base.
  destruct (String.eqb_spec (pre ++ String "/" seg) "") as [E|_].
  { destruct pre; discriminate. }
  assert (String.length (pre ++ String "/" seg)
          = S (String.length pre + String.length seg)) as Hlen
    by (rewrite string_length_app; simpl; lia).
  assert (exists c, get (String.length pre + String.length seg)
                      (pre ++ String "/" seg) = Some c /\ c <> "/"%char)
    as (c & Hc & Hcne).
  { rewrite get_app_r. destruct seg as [|d seg]; [congruence|].
    simpl String.length. cbn [get].
    destruct (get_lt (String d seg) (String.length seg)) as [c Hc];
      [simpl; lia|].
    exists c. split; [exact Hc|]. intros ->. exact (Hs _ Hc). }
  rewrite Hlen, (trimmed_len_keeps _ _ c Hc Hcne).
  unfold slice_to. rewrite <- Hlen, substring_0_length, Hlen.
  replace (S (String.length pre + String.length seg))
    with (String.length pre + S (String.length seg)) by lia.
  rewrite last_elem_start_slash by (auto; lia).
  assert (slice_from (pre ++ String "/" seg) (S (String.length pre)) = seg) as ->.
  { replace (pre ++ String "/" seg) with ((pre ++ String "/" "") ++ seg).
    - replace (S (String.length pre)) with (String.length (pre ++ String "/" ""))
        by (rewrite string_length_app; simpl; lia).
      apply slice_from_app.
    - clear. induction pre as [|c pre IH]; [reflexivity|].
      rewrite !append_cons. now rewrite IH. }
  destruct (String.eqb_spec seg ""); [contradiction | reflexivity].
Qed.

(** A name without a slash is its own base. *)
Lemma Base_plain (seg : string) :
  seg <> "" ->
  (forall k, get k seg <> Some "/"%char) ->
  Base seg = seg.
Proof.
  intros Hne Hs. unfold Base.
  destruct (String.eqb_spec seg "") as [E|_]; [contradiction|].
  assert (forall k, k <= String.length seg -> k <> 0 ->
            trimmed_len seg k = k) as Htrim.
  { intros [|k] Hk Hk0; [congruence|].
    destruct (get_lt seg k) as [c Hc]; [lia|].
    apply (trimmed_len_keeps _ _ c Hc). intros ->. exact (Hs _ Hc). }
  assert (String.length seg <> 0) as Hlen by (destruct seg; simpl; congruence).
  rewrite Htrim by auto. unfold slice_to. rewrite substring_0_length.
  assert (forall k, k <= String.length seg -> last_elem_start seg k = 0) as Hlast.
  { induction k as [|k IH]; intros Hk; [reflexivity|].
    cbn [last_elem_start]. destruct (get_lt seg k) as [c Hc]; [lia|].
    rewrite Hc, not_separator by (intros ->; exact (Hs _ Hc)). apply IH. lia. }
  rewrite Hlast by auto. unfold slice_from.
  replace (String.length seg - 0) with (String.length seg) by lia.
  rewrite substring_0_length.
  destruct (String.eqb_spec seg ""); [contradiction | reflexivity].
Qed.

Lemma index_0_empty (s : string) : index 0 "" s = Some 0.
Proof. destruct s; reflexivity. Qed.

(** [strings.Contains] finds exactly the substrings. *)
Lemma Contains_spec (s sub : string) :
  Contains s sub = true <-> exists a b, s = a ++ sub ++ b.
Proof.
  unfold Contains, Index. split.
  - destruct (index 0 sub s) as [m|] eqn:E; [intros _ | discriminate].
    apply index_correct1 in E.
    destruct (substring_decompose s m (String.length sub)) as (a & b & Hs).
    + now rewrite E.
    + exists a, b. now rewrite E in Hs.
  - intros (a & b & ->).
    destruct (index 0 sub (a ++ sub ++ b)) as [m|] eqn:E.
    + apply Z.leb_le. lia.
    + destruct sub as [|c sub'].
      * now rewrite index_0_empty in E.
      * exfalso.
        apply (index_correct3 0 (String.length a) _ _ E); [discriminate | lia |].
        apply substring_occurrence.
Qed.

Lemma eqb_true_iff (s t : string) : String.eqb s t = true <-> s = t.
Proof. apply String.eqb_eq. Qed.

(** C2. [shouldSkipFile] answers true exactly for the names that contain
    ["img-source"], or whose extension ([filepath.Ext]) is one of [.lua],
    [.psd], [.xcf], [.blend], [.jpg], or whose base name ([filepath.Base])
    is one of [LICENSE], [README.md], [script.dat], [banner.png],
    [preview.png], [preview.jpg]; it answers false for every other name.
    It is a total function of the name alone. *)
Theorem shouldSkipFile_spec (name : string) :
  shouldSkipFile name = true <->
  (exists a b, name = a ++ "img-source" ++ b)
  \/ In (Ext name) excluded_exts
  \/ In (Base name) excluded_bases.
Proof.
  unfold shouldSkipFile, excluded_exts, excluded_bases.
  rewrite <- Contains_spec.
  destruct (Contains name "img-source"); [tauto|].
  rewrite !orb_true_iff, !eqb_true_iff. simpl.
  intuition (try discriminate; auto).
Qed.


(** ** More about names *)

Lemma get_app_l (s t : string) (k : nat) :
  k < String.length s -> get k (s ++ t) = get k s.
Proof. intros H. symmetry. now apply append_correct1. Qed.

Lemma trimmed_len_app (s t : string) : forall n,
  n <= String.length s -> trimmed_len (s ++ t) n = trimmed_len s n.
Proof.
  induction n as [|n IH]; intros Hn; [reflexivity|].
  cbn [trimmed_len]. rewrite get_app_l by lia.
  destruct (get n s) as [c|]; [|reflexivity].
  destruct (IsPathSeparator c); [apply IH; lia | reflexivity].
Qed.

Lemma trimmed_len_le (s : string) : forall n, trimmed_len s n <= n.
Proof.
  induction n as [|n IH]; [reflexivity|]. cbn [trimmed_len].
  destruct (get n s) as [c|]; [|lia]. destruct (IsPathSeparator c); lia.
Qed.

Lemma slice_to_app (s t : string) : forall n,
  n <= String.length s -> slice_to (s ++ t) n = slice_to s n.
Proof.
  unfold slice_to. induction s as [|c s IH]; intros n Hn.
  - simpl in Hn. replace n with 0 by lia. rewrite append_nil. now destruct t.
  - rewrite append_cons. destruct n as [|n]; [reflexivity|].
    simpl. rewrite IH by (simpl in Hn; lia). reflexivity.
Qed.

(** X13. A trailing slash takes the extension away and leaves the base
    name: for a name that ends in a slash [filepath.Ext] is empty, so the
    entry of a directory is never given the placeholder and never left out
    for its extension, while [filepath.Base] is that of the name without
    the slash, so a directory called [LICENSE] is left out like a file. *)
Theorem trailing_slash (s : string) :
  s <> "" ->
  Ext (s ++ "/") = "" /\ Base (s ++ "/") = Base s.
Proof.
  intros Hne. split.
  - unfold Ext. rewrite string_length_app. simpl String.length.
    replace (String.length s + 1) with (S (String.length s + 0)) by lia.
    cbn [Ext_loop]. now rewrite get_app_r.
  - unfold Base.
    destruct (String.eqb_spec (s ++ "/") "") as [E|_].
    { destruct s; discriminate. }
    destruct (String.eqb_spec s "") as [E|_]; [contradiction|].
    assert (trimmed_len (s ++ "/") (String.length (s ++ "/"))
            = trimmed_len s (String.length s)) as ->.
    { rewrite string_length_app. simpl String.length.
      replace (String.length s + 1) with (S (String.length s + 0)) by lia.
      cbn [trimmed_len]. rewrite get_app_r. cbn [get].
      change (IsPathSeparator "/"%char) with true. cbv iota.
      replace (String.length s + 0) with (String.length s) by lia.
      now apply trimmed_len_app. }
    rewrite slice_to_app by apply trimmed_len_le. reflexivity.
Qed.

Ltac no_such_char :=
  let k := fresh "k" in
  intros k; do 12 (destruct k as [|k]; [cbn; discriminate|]); cbn; discriminate.

Lemma skip_by_base (name base : string) :
  Base name = base -> In base excluded_bases -> shouldSkipFile name = true.
Proof.
  intros <- Hin. unfold shouldSkipFile.
  destruct (Contains name "img-source"); [reflexivity|].
  rewrite !orb_true_iff, !String.eqb_eq.
  simpl in Hin. intuition auto.
Qed.

Lemma skip_by_ext (name ext : string) :
  Ext name = ext -> In ext excluded_exts -> shouldSkipFile name = true.
Proof.
  intros <- Hin. unfold shouldSkipFile.
  destruct (Contains name "img-source"); [reflexivity|].
  rewrite !orb_true_iff, !String.eqb_eq.
  simpl in Hin. intuition auto.
Qed.

(** X14. The six names are left out wherever they lie: an entry whose
    last path element is [LICENSE], [README.md], [script.dat],
    [banner.png], [preview.png] or [preview.jpg] is excluded in every
    directory, and at the top of the archive.  In particular
    [banner.png] and [preview.png] are dropped, not replaced by the
    placeholder. *)
Theorem excluded_in_every_directory :
  Forall (fun base =>
            shouldSkipFile base = true
            /\ forall dir, shouldSkipFile (dir ++ String "/" base) = true)
    excluded_bases.
Proof.
  unfold excluded_bases.
  repeat (apply Forall_cons; split;
          [ split;
            [ reflexivity
            | intros dir; eapply skip_by_base;
              [ apply Base_last_element; [discriminate | no_such_char]
              | simpl; tauto ] ]
          | ]).
  apply Forall_nil. trivial.
Qed.

(** X15. The five extensions are left out whatever comes before them: a
    name that ends in [.lua], [.psd], [.xcf], [.blend] or [.jpg] is
    excluded, in any directory and with any stem, the empty one
    included. *)
Theorem excluded_by_extension :
  Forall (fun ext => forall stem, shouldSkipFile (stem ++ ext) = true)
    excluded_exts.
Proof.
  unfold excluded_exts.
  repeat (apply Forall_cons; split;
          [ intros stem; eapply skip_by_ext;
            [ apply Ext_last_dot; no_such_char
            | simpl; tauto ]
          | ]).
  apply Forall_nil. trivial.
Qed.

(** ** The program at work *)

Abbreviation demo_processZipFile :=
  (processZipFile demo_NewReader demo_Bytes no_fault whole_writes).

Abbreviation demo_goroutine :=
  (goroutine demo_NewReader demo_Bytes no_fault whole_writes).

Abbreviation demo_main :=
  (main demo_NewReader demo_Bytes no_fault whole_writes demo_Join).

Example Ext_upper : Ext "maps/a.b/c.PNG" = ".PNG".
Proof. reflexivity. Qed.

Example Ext_no_dot : Ext "maps/a.b/c" = "".
Proof. reflexivity. Qed.

Example Ext_dir : Ext "x.png/" = "".
Proof. reflexivity. Qed.

Example Ext_hidden : Ext ".lua" = ".lua".
Proof. reflexivity. Qed.

Example Base_empty : Base "" = ".".
Proof. reflexivity. Qed.

Example Base_trailing : Base "a/LICENSE//" = "LICENSE".
Proof. reflexivity. Qed.

Example Base_slashes : Base "///" = "/".
Proof. reflexivity. Qed.

Example skip_img_source : shouldSkipFile "a/img-source/x.txt" = true.
Proof. reflexivity. Qed.

Example skip_case_sensitive : shouldSkipFile "a/control.LUA" = false.
Proof. reflexivity. Qed.

Example skip_preview : shouldSkipFile "a/preview.png" = true.
Proof. reflexivity. Qed.

(** Times as the archive stores them: a second before 1970 comes back as
    a time in 2106, the zero time as November 30, 1979. *)
Example stamp_before_1970 :
  stamp {| unix := -1; nsec := 0; zone := 0 |} = Some 4294967295%Z.
Proof. reflexivity. Qed.

Example stamp_zero_time :
  let t := {| unix := -62135596800; nsec := 0; zone := 0 |} in
  stamp t = None /\ stored_unix (stamp t) = 312768000%Z.
Proof. split; reflexivity. Qed.

Example HasSuffix_slash :
  HasSuffix "map/" "/" = true /\ HasSuffix "map" "/" = false
  /\ HasSuffix "" "/" = false.
Proof. repeat split. Qed.

(** The rewrite of the demo archive: two entries dropped, the image
    replaced, the rest copied. *)
Example demo_rewrite :
  exists w',
    demo_processZipFile "maps/a.zip" placeholderPNGPath demo_world = (Ok tt, w')
    /\ files w' !! "maps/a.zip"
       = Some (demo_Bytes
                 [copy_entry (demo_entry "map/info.json" 200%Z [Byte.x7b; Byte.x7d]);
                  {| e_header := {| Name := "map/thumb.png"; Method := Deflate;
                                    Modified := at_second 300 |};
                     e_stamp := Some 300%Z;
                     e_content := demo_placeholder |};
                  copy_entry (demo_entry "map/data/terrain.dat" 500%Z [Byte.x2a])])
    /\ stdout (trace w')
       = [("Excluding file map/control.lua" ++ nl)%string;
          ("Excluding file map/img-source/raw.txt" ++ nl)%string].
Proof. eexists. split; [vm_compute; reflexivity|]. split; vm_compute; reflexivity. Qed.

(** A disk that fills up during the final write: three bytes of the new
    archive reach the file, the error is reported, the file is removed. *)
Example demo_short_write :
  let fault o := match o with
                 | OpWrite "maps/a.zip" => Some (PathError "write" "maps/a.zip" ENOSPC)
                 | _ => None
                 end in
  let w1 := snd (processZipFile demo_NewReader demo_Bytes fault (fun _ => 3)
                   "maps/a.zip" placeholderPNGPath demo_world) in
  let w2 := goroutine demo_NewReader demo_Bytes fault (fun _ => 3)
              "maps/a.zip" placeholderPNGPath demo_world in
  files w1 !! "maps/a.zip" = Some [Byte.x50; Byte.x4b; Byte.x7b]
  /\ files w2 !! "maps/a.zip" = None
  /\ last (stdout (trace w2))
     = Some ("Error processing zip file maps/a.zip: could not overwrite zip file: "
             ++ "write maps/a.zip: no space left on device" ++ nl)%string.
Proof. vm_compute. auto. Qed.

(** The same with the removal refused as well: the three bytes stay. *)
Example demo_short_write_kept :
  let fault o := match o with
                 | OpWrite "maps/a.zip" => Some (PathError "write" "maps/a.zip" ENOSPC)
                 | OpRemove "maps/a.zip" => Some (PathError "remove" "maps/a.zip" EACCES)
                 | _ => None
                 end in
  let w2 := goroutine demo_NewReader demo_Bytes fault (fun _ => 3)
              "maps/a.zip" placeholderPNGPath demo_world in
  files w2 !! "maps/a.zip" = Some [Byte.x50; Byte.x4b; Byte.x7b]
  /\ modified (trace w2) = ["maps/a.zip"; "maps/a.zip"].
Proof. vm_compute. auto. Qed.

(** A directory entry with bytes of its own cannot be copied: the writer
    refuses them, and the rewrite fails. *)
Example demo_directory_with_bytes :
  let fs := [demo_entry "map/" 100%Z [Byte.x01]] in
  fst (range_files no_fault fs NewWriter demo_placeholder demo_world)
  = Err (Errorf "could not copy file to new zip"
           (Errorf "could not copy file content"
              (ErrOther "zip: write to directory"))).
Proof. reflexivity. Qed.

(** Three archives, the second one broken: the first and the third are
    rewritten, the second is removed, and the run ends as usual. *)
Example demo_job_isolation :
  let w' := snd (demo_main "." demo_tree demo_world) in
  dispatched (trace w') = ["maps/a.zip"; "maps/bad.zip"; "maps/plain.zip"]
  /\ files w' !! "maps/bad.zip" = None
  /\ files w' !! "maps/plain.zip"
     = Some (demo_Bytes (map copy_entry plain_files))
  /\ (exists b, files w' !! "maps/a.zip" = Some b /\ b <> demo_raw)
  /\ files w' !! "./placeholder.png" = Some demo_placeholder
  /\ last (stdout (trace w')) = Some ("Processing complete." ++ nl)%string.
Proof.
  vm_compute. repeat split; auto. eexists. split; [reflexivity | discriminate].
Qed.

(** [filepath.Walk] with a walk function that skips one directory: the
    directory is shown, its content is not, the walk goes on and returns
    nil. *)
Example Walk_SkipDir :
  let skip (path : string) (a : walk_arg) (w : World) :=
    (if String.eqb path "maps" then Some SkipDir else None, w) in
  let r := Walk demo_Join "." demo_tree skip demo_world in
  fst r = None
  /\ map fst (calls (trace (snd r))) = ["."; "maps"; "placeholder.png"].
Proof. vm_compute. auto. Qed.

(** ** The theorems at concrete inputs *)

(** The rewrite of the demo archive succeeds, and C1 applies to it. *)
Lemma processZipFile_output_demo :
  let w' := snd (demo_processZipFile "maps/a.zip" placeholderPNGPath demo_world) in
  demo_processZipFile "maps/a.zip" placeholderPNGPath demo_world = (Ok tt, w')
  /\ exists raw fs ph out,
       files demo_world !! "maps/a.zip" = Some raw
       /\ demo_NewReader raw = Ok fs
       /\ files demo_world !! placeholderPNGPath = Some ph
       /\ files w' = <["maps/a.zip" := demo_Bytes out]> (files demo_world)
       /\ Forall2 (output_of ph) (List.filter kept fs) out.
Proof.
  intros w'. split; [vm_compute; reflexivity|].
  apply (processZipFile_output demo_NewReader demo_Bytes no_fault whole_writes
           "maps/a.zip" placeholderPNGPath demo_world w').
  vm_compute. reflexivity.
Defined.

(** C3 at the demo archive. *)
Lemma processZipFile_copies_demo :
  let w' := snd (demo_processZipFile "maps/a.zip" placeholderPNGPath demo_world) in
  demo_processZipFile "maps/a.zip" placeholderPNGPath demo_world = (Ok tt, w')
  /\ exists raw fs out,
       files demo_world !! "maps/a.zip" = Some raw
       /\ demo_NewReader raw = Ok fs
       /\ files w' = <["maps/a.zip" := demo_Bytes out]> (files demo_world)
       /\ forall f, In f fs -> kept f = true -> is_png f = false ->
          exists e, In e out
            /\ Name (e_header e) = Name (header f)
            /\ e_stamp e = stamp (Modified (header f))
            /\ (survives (Modified (header f)) ->
                entry_time e = instant (Modified (header f)))
            /\ Method (e_header e)
               = (if HasSuffix (Name (header f)) "/" then Store else Deflate)
            /\ opened f = Ok {| rc_data := e_content e; rc_err := None |}
            /\ (HasSuffix (Name (header f)) "/" = true -> e_content e = []).
Proof.
  intros w'. split; [vm_compute; reflexivity|].
  apply (processZipFile_copies demo_NewReader demo_Bytes no_fault whole_writes
           "maps/a.zip" placeholderPNGPath demo_world w').
  vm_compute. reflexivity.
Defined.

(** C4, as the code has it, at the archive with an entry dated after
    2106, read back by a reader that returns what the archive stores. *)
Lemma rewrite_plain_archive_demo :
  let run := processZipFile third_NewReader demo_Bytes no_fault whole_writes in
  let w1 := snd (run "maps/late.zip" placeholderPNGPath dated_world) in
  let out := map copy_entry late_files in
  let fs2 := map reread out in
  (files dated_world !! "maps/late.zip" = Some late_raw
   /\ third_NewReader late_raw = Ok late_files
   /\ Forall (fun f => kept f = true /\ is_png f = false) late_files
   /\ run "maps/late.zip" placeholderPNGPath dated_world = (Ok tt, w1))
  /\ files w1 = <["maps/late.zip" := demo_Bytes out]> (files dated_world)
  /\ Forall2 same_entry late_files out
  /\ (third_NewReader (demo_Bytes out) = Ok fs2 /\ Forall2 read_back out fs2)
  /\ exists w2,
       run "maps/late.zip" placeholderPNGPath w1 = (Ok tt, w2)
       /\ files w2 = <["maps/late.zip" := demo_Bytes (map copy_entry fs2)]> (files w1)
       /\ Forall2 same_stored out (map copy_entry fs2).
Proof.
  intros run w1 out fs2.
  assert (H1 : files dated_world !! "maps/late.zip" = Some late_raw)
    by (vm_compute; reflexivity).
  assert (H2 : third_NewReader late_raw = Ok late_files)
    by (vm_compute; reflexivity).
  assert (H3 : Forall (fun f => kept f = true /\ is_png f = false) late_files)
    by (repeat constructor).
  assert (H4 : run "maps/late.zip" placeholderPNGPath dated_world = (Ok tt, w1))
    by (vm_compute; reflexivity).
  assert (H5 : third_NewReader (demo_Bytes out) = Ok fs2)
    by (vm_compute; reflexivity).
  assert (H6 : Forall2 read_back out fs2)
    by (repeat constructor).
  split; [auto|].
  destruct (rewrite_plain_archive third_NewReader demo_Bytes no_fault whole_writes
              "maps/late.zip" placeholderPNGPath dated_world w1 late_raw
              late_files H1 H2 H3 H4) as (Hf & HF & Hagain).
  split; [exact Hf|]. split; [exact HF|]. split; [auto|].
  exact (Hagain fs2 H5 H6).
Defined.


(** C7 in the world without the placeholder. *)
Lemma main_without_placeholder_demo :
  placeholder_missing no_fault bare_world = true
  /\ exists w',
       demo_main "." demo_tree bare_world = (0%Z, w')
       /\ files w' = files bare_world
       /\ since bare_world w'
          = [EStat "./placeholder.png";
             EPrint ("Placeholder PNG file not found at ./placeholder.png" ++ nl)].
Proof.
  split; [vm_compute; reflexivity|].
  apply (main_without_placeholder demo_NewReader demo_Bytes no_fault whole_writes
           demo_Join "." demo_tree bare_world).
  vm_compute. reflexivity.
Defined.

(** C6 as stated does not hold. In the demo run, [main] starts three
    goroutines and the placeholder is read twice, not once; nothing reads
    it before the first goroutine is started (event 9 of the trace), and
    its first read (event 11) is made by that goroutine, right after it
    opened its archive. *)
Lemma placeholder_read_twice :
  let tr := trace (snd (demo_main "." demo_tree demo_world)) in
  reads_of placeholderPNGPath tr = 2
  /\ reads_of placeholderPNGPath (take 10 tr) = 0
  /\ tr !! 9 = Some (EGo "maps/a.zip")
  /\ tr !! 10 = Some (EOpen "maps/a.zip")
  /\ tr !! 11 = Some (EReadFile placeholderPNGPath).
Proof. vm_compute. auto. Qed.


(** C9 as stated does not hold. The tree holds a directory that cannot be
    listed, and after it a directory with an archive. The walk reports the
    error and ends there: the archive, which is no part of the failing
    branch, is never shown to the walk function and no goroutine is started
    for it. *)
Lemma locked_directory_ends_walk :
  let tr := trace (snd (demo_main "." locked_tree demo_world)) in
  In "maps/a.zip" (map fst (calls_of demo_Join "." locked_tree))
  /\ map fst (calls tr) = ["."; "locked"]
  /\ ~ In "maps/a.zip" (map fst (calls tr))
  /\ dispatched tr = []
  /\ stdout tr = [("Error walking the directory: open locked: permission denied"
                   ++ nl)%string;
                  ("Processing complete." ++ nl)%string].
Proof.
  vm_compute. repeat split; auto.
  intros [H|[H|[]]]; discriminate.
Qed.

(** C9, as the code has it, at the tree with the locked directory. *)
Lemma walk_stops_at_first_error_demo :
  let tr := since demo_world (snd (demo_main "." locked_tree demo_world)) in
  let e := PathError "open" "locked" EACCES in
  placeholder_missing no_fault demo_world = false
  /\ first_error (calls_of demo_Join "." locked_tree) = Some e
  /\ calls tr = until_error (calls_of demo_Join "." locked_tree)
  /\ In ("Error walking the directory: " ++ Error e ++ nl)%string (stdout tr)
  /\ last (stdout tr) = Some ("Processing complete." ++ nl)%string.
Proof.
  intros tr e.
  assert (Hm : placeholder_missing no_fault demo_world = false)
    by (vm_compute; reflexivity).
  assert (He : first_error (calls_of demo_Join "." locked_tree) = Some e)
    by (vm_compute; reflexivity).
  split; [exact Hm|]. split; [exact He|].
  pose proof (walk_stops_at_first_error demo_NewReader demo_Bytes no_fault
                whole_writes demo_Join "." locked_tree demo_world Hm) as H.
  cbv zeta in H. rewrite He in H. exact H.
Defined.

(** C1 as stated does not hold. The entry [map/info.json] of the archive
    was last modified half a second after second 200.  The rewrite
    succeeds, and the entry the loop writes for it is stamped with second
    200: whoever reads the output finds another time than the input had. *)
Lemma fraction_of_second_is_lost :
  let f := {| header := {| Name := "map/info.json"; Method := Deflate;
                           Modified := {| unix := 200; nsec := 500000000;
                                          zone := 0 |} |};
              opened := Ok {| rc_data := [Byte.x7b; Byte.x7d]; rc_err := None |} |} in
  third_NewReader ntfs_raw = Ok ntfs_files
  /\ In f ntfs_files
  /\ kept f = true
  /\ fst (processZipFile third_NewReader demo_Bytes no_fault whole_writes
             "maps/ntfs.zip" placeholderPNGPath dated_world) = Ok tt
  /\ exists e e',
       fst (range_files no_fault ntfs_files NewWriter demo_placeholder dated_world)
       = Ok {| dir := [e; e']; closed := false |}
       /\ Name (e_header e) = Name (header f)
       /\ instant (Modified (header f)) = (200, 500000000)%Z
       /\ entry_time e = (200, 0)%Z
       /\ entry_time e <> instant (Modified (header f)).
Proof.
  intros f. split; [reflexivity|]. split; [now left|]. split; [reflexivity|].
  split; [vm_compute; reflexivity|].
  do 2 eexists. split; [vm_compute; reflexivity|].
  repeat split; discriminate.
Qed.

(** C3 as stated does not hold. The archive has an entry for the directory
    [map/], which is kept and is no [.png].  The rewrite succeeds, and the
    entry the loop writes for the directory has method [Store], not
    [Deflate]. *)
Lemma directory_entry_is_stored :
  let f := demo_entry "map/" 100%Z [] in
  third_NewReader tree_raw = Ok tree_files
  /\ In f tree_files
  /\ kept f = true
  /\ is_png f = false
  /\ fst (processZipFile third_NewReader demo_Bytes no_fault whole_writes
             "maps/tree.zip" placeholderPNGPath dated_world) = Ok tt
  /\ exists e e',
       fst (range_files no_fault tree_files NewWriter demo_placeholder dated_world)
       = Ok {| dir := [e; e']; closed := false |}
       /\ Name (e_header e) = Name (header f)
       /\ Method (e_header e) = Store
       /\ Method (e_header e) <> Deflate.
Proof.
  intros f. split; [reflexivity|]. split; [now left|].
  split; [reflexivity|]. split; [reflexivity|].
  split; [vm_compute; reflexivity|].
  do 2 eexists. split; [vm_compute; reflexivity|].
  repeat split; discriminate.
Qed.

(** C4 as stated does not hold. The archive has plain entries only, one of
    them dated [2^32 + 7] seconds after 1970.  The rewrite succeeds, and
    the entry written for it is stamped with second 7: the output does not
    have the timestamps of the input. *)
Lemma time_after_2106_wraps :
  let f := demo_entry "map/late.txt" 4294967303%Z [Byte.x41] in
  third_NewReader late_raw = Ok late_files
  /\ In f late_files
  /\ Forall (fun f => kept f = true /\ is_png f = false) late_files
  /\ fst (processZipFile third_NewReader demo_Bytes no_fault whole_writes
             "maps/late.zip" placeholderPNGPath dated_world) = Ok tt
  /\ exists e' e,
       fst (range_files no_fault late_files NewWriter demo_placeholder dated_world)
       = Ok {| dir := [e'; e]; closed := false |}
       /\ Name (e_header e) = Name (header f)
       /\ instant (Modified (header f)) = (4294967303, 0)%Z
       /\ entry_time e = (7, 0)%Z
       /\ entry_time e <> instant (Modified (header f)).
Proof.
  intros f. split; [reflexivity|]. split; [right; now left|].
  split; [repeat constructor|].
  split; [vm_compute; reflexivity|].
  do 2 eexists. split; [vm_compute; reflexivity|].
  repeat split; discriminate.
Qed.


(** C10 on a host with two processing units, two jobs under way and a
    third archive waiting: the only move is the end of a job. *)
Lemma at_most_NumCPU_jobs_demo :
  let s0 := sched_init 2 ["a.zip"; "b.zip"; "c.zip"] demo_world in
  let s2 := {| swg := Add (Add (New 2));
               todo := ["c.zip"];
               running := ["a.zip"; "b.zip"];
               world := emit (EGo "b.zip") (emit (EGo "a.zip") demo_world) |} in
  ((0 < 2)%Z
   /\ steps demo_NewReader demo_Bytes no_fault whole_writes s0 s2)
  /\ (Z.of_nat (length (running s2)) <= 2)%Z
  /\ forall s', step demo_NewReader demo_Bytes no_fault whole_writes s2 s' ->
       todo s' = todo s2 /\ S (length (running s')) = length (running s2).
Proof.
  intros s0 s2.
  assert (Hs : steps demo_NewReader demo_Bytes no_fault whole_writes s0 s2).
  { pose (s1 := {| swg := Add (New 2);
                   todo := ["b.zip"; "c.zip"];
                   running := ["a.zip"];
                   world := emit (EGo "a.zip") demo_world |}).
    apply (steps_step _ _ _ _ s0 s1 s2).
    - apply (steps_step _ _ _ _ s0 s0 s1); [apply steps_refl|].
      refine (step_go demo_NewReader demo_Bytes no_fault whole_writes
                s0 "a.zip" ["b.zip"; "c.zip"] eq_refl _).
      simpl. lia.
    - refine (step_go demo_NewReader demo_Bytes no_fault whole_writes
                s1 "b.zip" ["c.zip"] eq_refl _).
      simpl. lia. }
  assert (Hn : (0 < 2)%Z) by lia.
  split; [split; [exact Hn | exact Hs]|].
  destruct (at_most_NumCPU_jobs demo_NewReader demo_Bytes no_fault whole_writes
              2 ["a.zip"; "b.zip"; "c.zip"] demo_world s2 Hn Hs) as (Hle & Hfull).
  split; [exact Hle|]. apply Hfull. reflexivity.
Defined.

(** ** More theorems at concrete inputs *)



Ltac in_list :=
  repeat first [apply list_elem_of_here | apply list_elem_of_further].

(** X2 at the demo archive, which holds entries of every kind. *)
Lemma rewrite_twice_demo :
  let run := processZipFile second_NewReader demo_Bytes no_fault whole_writes in
  let w1 := snd (run "maps/a.zip" placeholderPNGPath demo_world) in
  let out := rewrite_entries demo_placeholder demo_files in
  (files demo_world !! "maps/a.zip" = Some demo_raw
   /\ second_NewReader demo_raw = Ok demo_files
   /\ files demo_world !! placeholderPNGPath = Some demo_placeholder
   /\ placeholderPNGPath <> "maps/a.zip"
   /\ run "maps/a.zip" placeholderPNGPath demo_world = (Ok tt, w1)
   /\ second_NewReader (demo_Bytes out) = Ok (map reopen out))
  /\ files w1 = <["maps/a.zip" := demo_Bytes out]> (files demo_world)
  /\ exists w2,
       run "maps/a.zip" placeholderPNGPath w1 = (Ok tt, w2)
       /\ files w2 = files w1
       /\ stdout (since w1 w2) = [].
Proof.
  intros run w1 out.
  assert (H1 : files demo_world !! "maps/a.zip" = Some demo_raw)
    by (vm_compute; reflexivity).
  assert (H2 : second_NewReader demo_raw = Ok demo_files)
    by (vm_compute; reflexivity).
  assert (H3 : files demo_world !! placeholderPNGPath = Some demo_placeholder)
    by (vm_compute; reflexivity).
  assert (H4 : placeholderPNGPath <> "maps/a.zip") by discriminate.
  assert (H5 : run "maps/a.zip" placeholderPNGPath demo_world = (Ok tt, w1))
    by (vm_compute; reflexivity).
  assert (H6 : second_NewReader (demo_Bytes out) = Ok (map reopen out))
    by (vm_compute; reflexivity).
  split; [auto 10|].
  exact (rewrite_twice second_NewReader demo_Bytes no_fault whole_writes
           "maps/a.zip" placeholderPNGPath demo_world w1 demo_raw
           demo_placeholder demo_files H1 H2 H3 H4 H5 H6).
Defined.

(** X3 at the demo archive. *)
Lemma excluded_names_are_printed_demo :
  let w' := snd (demo_processZipFile "maps/a.zip" placeholderPNGPath demo_world) in
  (files demo_world !! "maps/a.zip" = Some demo_raw
   /\ demo_NewReader demo_raw = Ok demo_files
   /\ demo_processZipFile "maps/a.zip" placeholderPNGPath demo_world = (Ok tt, w'))
  /\ stdout (since demo_world w')
     = map (fun f => "Excluding file " ++ Name (header f) ++ nl)
         (List.filter (fun f => shouldSkipFile (Name (header f))) demo_files).
Proof.
  intros w'.
  assert (H1 : files demo_world !! "maps/a.zip" = Some demo_raw)
    by (vm_compute; reflexivity).
  assert (H2 : demo_NewReader demo_raw = Ok demo_files)
    by (vm_compute; reflexivity).
  assert (H3 : demo_processZipFile "maps/a.zip" placeholderPNGPath demo_world
               = (Ok tt, w')) by (vm_compute; reflexivity).
  split; [auto|].
  exact (excluded_names_are_printed demo_NewReader demo_Bytes no_fault whole_writes
           "maps/a.zip" placeholderPNGPath demo_world w' demo_raw demo_files
           H1 H2 H3).
Defined.

(** X5 at the archive with an entry whose checksum fails, the removal
    refused. *)
Lemma unreadable_entry_fails_job_demo :
  let f := {| header := {| Name := "map/terrain.dat"; Method := Deflate;
                           Modified := at_second 300 |};
              opened := Ok {| rc_data := [Byte.x2a]; rc_err := Some ErrChecksum |} |} in
  (files broken_world !! "maps/broken.zip" = Some broken_raw
   /\ second_NewReader broken_raw = Ok broken_files
   /\ In f broken_files
   /\ kept f = true
   /\ is_png f = false
   /\ forall data, opened f <> Ok {| rc_data := data; rc_err := None |})
  /\ (exists e w1,
        processZipFile second_NewReader demo_Bytes refused_remove whole_writes
          "maps/broken.zip" placeholderPNGPath broken_world = (Err e, w1)
        /\ files w1 = files broken_world)
  /\ files (goroutine second_NewReader demo_Bytes refused_remove whole_writes
              "maps/broken.zip" placeholderPNGPath broken_world)
     = files broken_world.
Proof.
  intros f.
  assert (H1 : files broken_world !! "maps/broken.zip" = Some broken_raw)
    by (vm_compute; reflexivity).
  assert (H2 : second_NewReader broken_raw = Ok broken_files)
    by (vm_compute; reflexivity).
  assert (H3 : In f broken_files) by (right; left; reflexivity).
  assert (H4 : kept f = true) by (vm_compute; reflexivity).
  assert (H5 : is_png f = false) by (vm_compute; reflexivity).
  assert (H6 : forall data, opened f <> Ok {| rc_data := data; rc_err := None |})
    by (intros data; discriminate).
  split; [auto 10|].
  exact (unreadable_entry_fails_job second_NewReader demo_Bytes refused_remove
           whole_writes "maps/broken.zip" placeholderPNGPath broken_world
           broken_raw broken_files f H1 H2 H3 H4 H5 H6).
Defined.

(** X6 at two archives of the demo world. *)
Lemma jobs_commute_demo :
  ("maps/a.zip" <> "maps/plain.zip"
   /\ placeholderPNGPath <> "maps/a.zip"
   /\ placeholderPNGPath <> "maps/plain.zip")
  /\ files (demo_goroutine "maps/a.zip" placeholderPNGPath
              (demo_goroutine "maps/plain.zip" placeholderPNGPath demo_world))
     = files (demo_goroutine "maps/plain.zip" placeholderPNGPath
                (demo_goroutine "maps/a.zip" placeholderPNGPath demo_world)).
Proof.
  assert (H1 : "maps/a.zip" <> "maps/plain.zip") by discriminate.
  assert (H2 : placeholderPNGPath <> "maps/a.zip") by discriminate.
  assert (H3 : placeholderPNGPath <> "maps/plain.zip") by discriminate.
  split; [auto|].
  exact (jobs_commute demo_NewReader demo_Bytes no_fault whole_writes
           "maps/a.zip" "maps/plain.zip" placeholderPNGPath demo_world H1 H2 H3).
Defined.


(** X8 at the moment one goroutine is under way and one archive waits. *)
Lemma scheduler_never_stuck_demo :
  let s0 := sched_init 2 ["maps/a.zip"; "maps/plain.zip"] demo_world in
  let s1 := {| swg := Add (New 2); todo := ["maps/plain.zip"];
               running := ["maps/a.zip"];
               world := emit (EGo "maps/a.zip") demo_world |} in
  ((0 < 2)%Z /\ steps demo_NewReader demo_Bytes no_fault whole_writes s0 s1)
  /\ (complete s1
      \/ exists s', step demo_NewReader demo_Bytes no_fault whole_writes s1 s')
  /\ (forall s', step demo_NewReader demo_Bytes no_fault whole_writes s1 s' ->
        moves_left s' < moves_left s1).
Proof.
  intros s0 s1.
  assert (Hn : (0 < 2)%Z) by lia.
  assert (Hs : steps demo_NewReader demo_Bytes no_fault whole_writes s0 s1).
  { apply (steps_step _ _ _ _ s0 s0 s1); [apply steps_refl|].
    refine (step_go demo_NewReader demo_Bytes no_fault whole_writes
              s0 "maps/a.zip" ["maps/plain.zip"] eq_refl _).
    simpl. lia. }
  split; [auto|].
  exact (scheduler_never_stuck demo_NewReader demo_Bytes no_fault whole_writes
           2 ["maps/a.zip"; "maps/plain.zip"] demo_world s1 Hn Hs).
Defined.

(** X10 in the demo world, with the read of the placeholder refused: the
    archive of plain entries is lost as well. *)
Lemma unreadable_placeholder_fails_every_job_demo :
  let w' := snd (main demo_NewReader demo_Bytes refused_read whole_writes demo_Join
                   "." demo_tree demo_world) in
  (refused_read (OpReadFile placeholderPNGPath)
   = Some (PathError "open" "./placeholder.png" EACCES)
   /\ ("maps/plain.zip" ∈ dispatched (since demo_world w')))
  /\ files w' !! "maps/plain.zip" = None.
Proof.
  intros w'.
  assert (H1 : refused_read (OpReadFile placeholderPNGPath)
               = Some (PathError "open" "./placeholder.png" EACCES))
    by reflexivity.
  assert (H2 : "maps/plain.zip" ∈ dispatched (since demo_world w'))
    by (vm_compute; in_list).
  split; [auto|].
  exact (unreadable_placeholder_fails_every_job demo_NewReader demo_Bytes
           refused_read whole_writes demo_Join "." demo_tree demo_world _
           "maps/plain.zip" H1 H2).
Defined.


(** X12 in the demo run: no walk error, three archives in the tree. *)
Lemma main_dispatch_list_demo :
  let tr := since demo_world (snd (demo_main "." demo_tree demo_world)) in
  (placeholder_missing no_fault demo_world = false
   /\ first_error (calls_of demo_Join "." demo_tree) = None)
  /\ dispatched tr
     = map fst (List.filter is_target (visited (calls_of demo_Join "." demo_tree))).
Proof.
  intros tr.
  assert (H1 : placeholder_missing no_fault demo_world = false)
    by (vm_compute; reflexivity).
  assert (H2 : first_error (calls_of demo_Join "." demo_tree) = None)
    by (vm_compute; reflexivity).
  split; [auto|].
  destruct (main_dispatch_list demo_NewReader demo_Bytes no_fault whole_writes
              demo_Join "." demo_tree demo_world H1) as (_ & Hall).
  exact (Hall H2).
Defined.

(** X13 at a directory called LICENSE. *)
Lemma trailing_slash_demo :
  "docs/LICENSE" <> ""
  /\ Ext ("docs/LICENSE" ++ "/") = ""
  /\ Base ("docs/LICENSE" ++ "/") = Base "docs/LICENSE".
Proof.
  assert (H : "docs/LICENSE" <> "") by discriminate.
  split; [exact H|]. exact (trailing_slash "docs/LICENSE" H).
Defined.
